(** * AccumulatingProcessor (mod.ts): a batch processor accumulating items by
    count, delay or size.

    The class is embedded as a state machine.  Its private fields [#all],
    [#current] and the batch objects they refer to form the [State]; the
    synchronous methods [process], [release] and [flush] are functions on that
    state; everything the JavaScript run time does later on behalf of the
    class (a timer firing, the promise of the processing function settling,
    the reactions chained with [then], [catch] and [finally]) is an [event]
    handled by [step].

    Thresholds and sizes are taken to be integers ([Z]), which are added and
    compared exactly; JavaScript does so as long as the sums stay within
    [2 ^ 53] in magnitude ([exact_sizes]).  [size.calculate] is taken to
    return a number for every item.  The processing function, which the
    constructor checks to be a function, and [size.calculate] do not call
    back into the processor.  When a timer fires, when the promise of a call
    of the processing function settles and when a thenable given as a result
    calls back is left open: each is an event that may come at any moment,
    or never. *)

From stdpp Require Import gmap list strings pretty.

#[local] Set Warnings "-clear-no-such-hyp".
Local Open Scope Z_scope.

(** ** JavaScript values seen by the result mapping *)

#[local] Unset Elimination Schemes.
Inductive value : Type :=
  | VUndefined
  | VNull
  | VBool (b : bool)
  | VNum (n : Z)
  | VStr (s : string)
  | VError (message : string)            (* an instance of Error *)
  | VArray (elements : list value)
  | VExotic (slots : list (value + value))
    (* an object whose indexed properties are data ([inl v]) or an accessor /
       proxy trap that throws ([inr e]) *)
  | VThenable (fate : value + value).
    (* a promise or another object with a [then] method, and what [then]
       does with its callbacks if it ever calls one: the first with a value
       ([inl v]) or the second with a reason ([inr e]) *)

#[local] Set Elimination Schemes.

(** [result instanceof Error] *)
Definition instanceof_Error (v : value) : bool :=
  match v with VError _ => true | _ => false end.

(** [results[index]]: the value read ([inl]) or the value thrown ([inr]).
    Strings are taken to hold one-unit characters only. *)
Definition get_index (results : value) (index : nat) : value + value :=
  match results with
  | VUndefined | VNull =>
      inr (VError "Cannot read properties of undefined or null")
  | VArray elements => inl (default VUndefined (elements !! index))
  | VExotic slots =>
      match slots !! index with
      | Some (inl v) => inl v
      | Some (inr e) => inr e
      | None => inl VUndefined
      end
  | VStr s =>
      inl (match String.get index s with
           | Some c => VStr (String c EmptyString)
           | None => VUndefined
           end)
  | VBool _ | VNum _ | VError _ | VThenable _ => inl VUndefined
  end.

(** State of a promise. *)
Inductive settlement : Type :=
  | Pending
  | Fulfilled (v : value)
  | Rejected (e : value).

Definition is_thenable (v : value) : bool :=
  match v with VThenable _ => true | _ => false end.

(** How a promise that settles ends. *)
Inductive outcome : Type :=
  | Fulfils (results : value)
  | Rejects (error : value).

(** The state of a promise that has ended as [o]. *)
Definition settled (o : outcome) : settlement :=
  match o with
  | Fulfils v => Fulfilled v
  | Rejects e => Rejected e
  end.

(** How a promise resolved with [v] ends: fulfilled with [v], unless [v] is
    a thenable; the promise then follows [v], and a value [v] calls back with
    is resolved in the same way.  When, and whether, a thenable calls back is
    not fixed by the value: it is an event, which may never come. *)
Fixpoint fate_of (v : value) : outcome :=
  match v with
  | VThenable (inl w) => fate_of w
  | VThenable (inr e) => Rejects e
  | _ => Fulfils v
  end.

(** How a call of the user's processing function ends. *)
Inductive behaviour : Type :=
  | Returns (v : value)                  (* returns a value *)
  | Throws (e : value)                   (* throws synchronously *)
  | Awaitable (o : outcome).             (* returns a promise, which settles *)

(** [this.#fn = async (batch) => await fn(batch)]: how the promise of the
    wrapped call settles, once it does.  [await] follows a thenable. *)
Definition async_fn (r : behaviour) : outcome :=
  match r with
  | Returns v => fate_of v
  | Throws e => Rejects e
  | Awaitable (Fulfils v) => fate_of v
  | Awaitable (Rejects e) => Rejects e
  end.

(** ** Options *)

Section Processor.

Context {Item : Type}.

Record SizeOptions : Type := {
  size_max : Z;
  calculate : Item → Z;                  (* taken to return an integer *)
  strict : bool;
}.

Record ThresholdOptions : Type := {
  count : option Z;                      (* count.max *)
  delay : option Z;                      (* delay.max *)
  size_options : option SizeOptions;     (* size *)
}.

(** The options as a caller who keeps to the declared types writes them;
    [strict] may be left out.  For such a caller the [typeof] tests of
    [validateOptions] hold, and only its two range checks are left. *)
Record RawSize : Type := {
  raw_max : Z;
  raw_calculate : Item → Z;
  raw_strict : option bool;
}.

Record RawOptions : Type := {
  raw_count : option Z;
  raw_delay : option Z;
  raw_size : option RawSize;
}.

(** [typeof o.max !== "number" || o.max < bound] for a threshold that may be
    absent. *)
Definition below (bound : Z) (threshold : option Z) : bool :=
  match threshold with
  | Some m => m <? bound
  | None => false
  end.

Definition validateOptions (options : option RawOptions)
  : string + ThresholdOptions :=
  match options with
  | None => inr {| count := None; delay := None; size_options := None |}
  | Some o =>
      if below 1 (raw_count o)
      then inl "count.max must be a number greater than or equal to 1"
      else if below 0 (raw_delay o)
      then inl "delay.max must be a number greater than or equal to 0"
      else
        inr {| count := raw_count o;
               delay := raw_delay o;
               size_options :=
                 (λ r, {| size_max := raw_max r;
                          calculate := raw_calculate r;
                          strict := default true (raw_strict r) |})
                   <$> raw_size o |}
  end.

(** ** Batches and the processor state *)

Record Entry : Type := {
  item : Item;
  slot : settlement;       (* the promise [entry.resolve]/[entry.reject] settle *)
  follows : option value;  (* the thenable that promise was resolved with *)
}.

(** How far the reactions chained on the dispatch of a batch have run. *)
Inductive stage : Type :=
  | Accumulating                         (* the batch is [#current] *)
  | InFlight                             (* [#fn] called, promise pending *)
  | Mapped (o : outcome)              (* the [then] reaction is over *)
  | Caught (o : outcome)              (* the [catch] reaction is over *)
  | Signalled (o : outcome)           (* [finally] has called [batch.resolve] *)
  | Removed (o : outcome).            (* [#all.delete(batch)] ran: [batch.promise] fulfilled *)

Record Batch : Type := {
  entries : list Entry;
  total : Z;                             (* [size] *)
  timeout : option nat;
  fired : nat;                           (* calls of [batch.resolve] so far *)
  progress : stage;
}.

Record Timer : Type := {
  timer_batch : nat;                     (* [next] captured by the callback *)
  timer_delay : Z;
}.

(** A pending call of [flush]: the batches whose promises were handed to
    [Promise.all], those still unfulfilled, and whether [await all] is over. *)
Record Flushing : Type := {
  awaited : gset nat;
  waiting : gset nat;
  resumed : bool;
}.

Record State : Type := {
  all : gset nat;                        (* [#all], batches by identity *)
  current : option nat;                  (* [#current] *)
  heap : list Batch;                     (* the batch objects; identity = index *)
  timers : gmap nat Timer;               (* timeouts set and not yet fired or cleared *)
  next_timer : nat;
  flushes : list Flushing;
  calls : list (nat * list Item);        (* calls of [fn]: the batch and the argument *)
}.

Definition init : State :=
  {| all := ∅; current := None; heap := []; timers := ∅; next_timer := 0%nat;
     flushes := []; calls := [] |}.

End Processor.

Arguments SizeOptions : clear implicits.
Arguments ThresholdOptions : clear implicits.
Arguments RawSize : clear implicits.
Arguments RawOptions : clear implicits.
Arguments Entry : clear implicits.
Arguments Batch : clear implicits.
Arguments State : clear implicits.

(** ** The methods *)

Section Machine.

Context {Item : Type}.
Variable options : ThresholdOptions Item.      (* [#options] *)

#[local] Abbreviation Entry := (Entry Item).
#[local] Abbreviation Batch := (Batch Item).
#[local] Abbreviation State := (State Item).

Definition set_slot (p : settlement) (e : Entry) : Entry :=
  {| item := item e; slot := p; follows := follows e |}.

(** The functions [resolve] and [reject] of an entry's promise.  They act
    once: on a promise that is settled, or that follows a thenable, they do
    nothing.  [resolve] with a thenable makes the promise follow it. *)
Definition entry_resolve (v : value) (e : Entry) : Entry :=
  match slot e, follows e with
  | Pending, None =>
      if is_thenable v
      then {| item := item e; slot := Pending; follows := Some v |}
      else set_slot (Fulfilled v) e
  | _, _ => e
  end.

Definition entry_reject (error : value) (e : Entry) : Entry :=
  match slot e, follows e with
  | Pending, None => set_slot (Rejected error) e
  | _, _ => e
  end.

(** The thenable a promise follows calls back: the promise settles as the
    thenable does, if it does. *)
Definition entry_adopt (e : Entry) : Entry :=
  match slot e, follows e with
  | Pending, Some v => set_slot (settled (fate_of v)) e
  | _, _ => e
  end.

Definition set_entries (es : list Entry) (batch : Batch) : Batch :=
  {| entries := es; total := total batch; timeout := timeout batch;
     fired := fired batch; progress := progress batch |}.

Definition set_progress (p : stage) (batch : Batch) : Batch :=
  {| entries := entries batch; total := total batch; timeout := timeout batch;
     fired := fired batch; progress := p |}.

Definition set_heap (h : list Batch) (s : State) : State :=
  {| all := all s; current := current s; heap := h; timers := timers s;
     next_timer := next_timer s; flushes := flushes s; calls := calls s |}.

Definition set_current (c : option nat) (s : State) : State :=
  {| all := all s; current := c; heap := heap s; timers := timers s;
     next_timer := next_timer s; flushes := flushes s; calls := calls s |}.

Definition set_timers (ts : gmap nat Timer) (s : State) : State :=
  {| all := all s; current := current s; heap := heap s; timers := ts;
     next_timer := next_timer s; flushes := flushes s; calls := calls s |}.

Definition set_flushes (fs : list Flushing) (s : State) : State :=
  {| all := all s; current := current s; heap := heap s; timers := timers s;
     next_timer := next_timer s; flushes := fs; calls := calls s |}.

(** The batch [#current] refers to. *)
Definition current_batch (s : State) : option Batch :=
  current s ≫= λ b, heap s !! b.

Definition clearTimeout (t : option nat) (ts : gmap nat Timer)
  : gmap nat Timer :=
  match t with Some t => delete t ts | None => ts end.

(** [release()]: [#current] is given up, its timer is cleared and the
    processing function is called with its items.  The reactions chained on
    that call run later, as events. *)
Definition release (s : State) : State :=
  match current s with
  | None => s
  | Some b =>
      match heap s !! b with
      | None => set_current None s       (* no such object: never the case *)
      | Some batch =>
          {| all := all s;
             current := None;
             heap := <[b := set_progress InFlight batch]> (heap s);
             timers := clearTimeout (timeout batch) (timers s);
             next_timer := next_timer s;
             flushes := flushes s;
             calls := calls s ++ [(b, item <$> entries batch)] |}
      end
  end.

(** Lines 165-188 of [process]: a new batch becomes [#current]. *)
Definition open (s : State) : State :=
  let next := length (heap s) in
  {| all := {[next]} ∪ all s;
     current := Some next;
     heap := heap s ++
       [{| entries := []; total := 0;
           timeout := (λ _, next_timer s) <$> delay options;
           fired := 0; progress := Accumulating |}];
     timers :=
       match delay options with
       | Some d =>
           <[next_timer s := {| timer_batch := next; timer_delay := d |}]>
             (timers s)
       | None => timers s
       end;
     next_timer :=
       match delay options with
       | Some _ => S (next_timer s)
       | None => next_timer s
       end;
     flushes := flushes s;
     calls := calls s |}.

(** Lines 190-197: [entries.push(entry)] and [size += size], the sum being
    exact. *)
Definition push (it : Item) (sz : Z) (batch : Batch) : Batch :=
  {| entries :=
       entries batch ++ [{| item := it; slot := Pending; follows := None |}];
     total := total batch + sz;
     timeout := timeout batch; fired := fired batch;
     progress := progress batch |}.

(** The condition of lines 199-208. *)
Definition threshold_reached (batch : Batch) : bool :=
  match count options with
  | Some m => m <=? Z.of_nat (length (entries batch))
  | None => false
  end
  ||
  match size_options options with
  | Some o => size_max o <=? total batch
  | None => false
  end.

(** [size > max && strict], line 154. *)
Definition too_large (sz : Z) : bool :=
  match size_options options with
  | Some o => (size_max o <? sz) && strict o
  | None => false
  end.

(** [this.#current && (this.#current.size + size) > max], line 160. *)
Definition overflows (sz : Z) (s : State) : bool :=
  match size_options options, current_batch s with
  | Some o, Some batch => size_max o <? total batch + sz
  | _, _ => false
  end.

(** The Error of line 155, for numbers JavaScript prints digit by digit
    (those below [10 ^ 21] in magnitude). *)
Definition size_error (sz limit : Z) : value :=
  VError ("item has size " +:+ pretty sz +:+ ", greater than " +:+
          pretty limit +:+ " allowed").

(** Lines 158-162: release first when the item would push the batch over the
    limit. *)
Definition make_room (sz : Z) (s : State) : State :=
  if overflows sz s then release s else s.

(** Lines 165-188. *)
Definition ensure_open (s : State) : State :=
  match current s with Some _ => s | None => open s end.

(** Lines 190-197, on the batch [b] that is [#current]. *)
Definition enqueue (it : Item) (sz : Z) (b : nat) (s : State) : State :=
  set_heap (alter (push it sz) b (heap s)) s.

(** Lines 199-210. *)
Definition check_thresholds (s : State) : State :=
  if from_option threshold_reached false (current_batch s)
  then release s else s.

(** [process(item)]: the new state, and either the error thrown or the
    promise returned, named by its batch and its position there. *)
Definition process (it : Item) (s : State) : State * (value + nat * nat) :=
  let sz := from_option (λ o, calculate o it) 0 (size_options options) in
  if too_large sz
  then (s, inl (size_error sz (from_option size_max 0 (size_options options))))
  else
    let s2 := ensure_open (make_room sz s) in
    match current s2 with
    | Some b =>
        (check_thresholds (enqueue it sz b s2),
         inr (b, length (from_option entries [] (heap s2 !! b))))
    | None => (s2, inl (VError "Cannot read properties of undefined"))
    end.

(** [flush()]: the new state and the call's own promise. *)
Definition flush (s : State) : State * nat :=
  let pending :=
    {| awaited := all s; waiting := all s; resumed := false |} in
  (release (set_flushes (flushes s ++ [pending]) s), length (flushes s)).

(** ** Reactions *)

(** The callback given to [setTimeout], lines 180-184. *)
Definition on_timeout (next : nat) (s : State) : State :=
  if decide (current s = Some next) then release s else s.

(** Lines 232-240: the value taken for the entry at [index]. *)
Definition result_at (results : value) (index : nat) : value :=
  let indexable :=
    match results with VUndefined | VNull => false | _ => true end in
  match (if indexable then get_index results index else inl VUndefined) with
  | inl v => v
  | inr error => error
  end.

(** Lines 242-246. *)
Definition complete (result : value) (e : Entry) : Entry :=
  if instanceof_Error result then entry_reject result e
  else entry_resolve result e.

(** The [then] reaction on the promise of [#fn]. *)
Definition on_settled (o : outcome) (batch : Batch) : Batch :=
  set_progress (Mapped o)
    match o with
    | Fulfils results =>
        set_entries
          (imap (λ index entry, complete (result_at results index) entry)
             (entries batch))
          batch
    | Rejects _ => batch
    end.

(** The [catch] reaction. *)
Definition on_caught (o : outcome) (batch : Batch) : Batch :=
  set_progress (Caught o)
    match o with
    | Fulfils _ => batch
    | Rejects error => set_entries (entry_reject error <$> entries batch) batch
    end.

(** The [finally] reaction: [batch.resolve()]. *)
Definition on_finally (o : outcome) (batch : Batch) : Batch :=
  {| entries := entries batch; total := total batch; timeout := timeout batch;
     fired := S (fired batch); progress := Signalled o |}.

(** The reaction chained on the promise [batch.resolve] fulfils:
    [this.#all.delete(next)].  [batch.promise] is then fulfilled, which every
    [Promise.all] it was given to notes. *)
Definition on_signalled (b : nat) (o : outcome) (batch : Batch) (s : State)
  : State :=
  {| all := all s ∖ {[b]};
     current := current s;
     heap := <[b := set_progress (Removed o) batch]> (heap s);
     timers := timers s;
     next_timer := next_timer s;
     flushes :=
       (λ f, {| awaited := awaited f; waiting := waiting f ∖ {[b]};
                resumed := resumed f |}) <$> flushes s;
     calls := calls s |}.

(** [await all] in [flush] is over once nothing is waited for. *)
Definition on_all (f : Flushing) : Flushing :=
  if decide (waiting f = ∅)
  then {| awaited := awaited f; waiting := waiting f; resumed := true |}
  else f.

(** The thenable that entry [index] was resolved with calls back.  Only the
    [then] reaction of a call that fulfilled resolves entries. *)
Definition on_adopted (index : nat) (batch : Batch) : Batch :=
  match progress batch with
  | Mapped (Fulfils _) | Caught (Fulfils _) | Signalled (Fulfils _)
  | Removed (Fulfils _) =>
      set_entries (alter entry_adopt index (entries batch)) batch
  | _ => batch
  end.

Inductive event : Type :=
  | Process (it : Item)
  | Release
  | Flush
  | Timeout (t : nat)                    (* the timer [t] fires *)
  | Settle (b : nat) (r : behaviour)     (* the call of [fn] for [b] ends *)
  | Catch (b : nat)
  | Finally (b : nat)
  | Delete (b : nat)
  | Resume (f : nat)
  | Adopt (b index : nat).               (* a thenable given as a result settles *)

Definition step (s : State) (e : event) : State :=
  match e with
  | Process it => (process it s).1
  | Release => release s
  | Flush => (flush s).1
  | Timeout t =>
      match timers s !! t with
      | Some tm =>
          on_timeout (timer_batch tm) (set_timers (delete t (timers s)) s)
      | None => s
      end
  | Settle b r =>
      match heap s !! b with
      | Some batch =>
          match progress batch with
          | InFlight =>
              set_heap (<[b := on_settled (async_fn r) batch]> (heap s)) s
          | _ => s
          end
      | None => s
      end
  | Catch b =>
      match heap s !! b with
      | Some batch =>
          match progress batch with
          | Mapped o => set_heap (<[b := on_caught o batch]> (heap s)) s
          | _ => s
          end
      | None => s
      end
  | Finally b =>
      match heap s !! b with
      | Some batch =>
          match progress batch with
          | Caught o => set_heap (<[b := on_finally o batch]> (heap s)) s
          | _ => s
          end
      | None => s
      end
  | Delete b =>
      match heap s !! b with
      | Some batch =>
          match progress batch with
          | Signalled o => on_signalled b o batch s
          | _ => s
          end
      | None => s
      end
  | Resume f => set_flushes (alter on_all f (flushes s)) s
  | Adopt b index =>
      match heap s !! b with
      | Some batch =>
          match progress batch with
          | Accumulating | InFlight => s
          | _ => set_heap (<[b := on_adopted index batch]> (heap s)) s
          end
      | None => s
      end
  end.

(** The state after a history of events, starting from a new processor. *)
Definition run (history : list event) : State := foldl step init history.

(** ** The invariant of reachable states *)

(** Neither [resolve] nor [reject] has been called yet. *)
Definition all_pending (es : list Entry) : Prop :=
  ∀ e, e ∈ es → slot e = Pending ∧ follows e = None.

(** What lines 242-246 make of a result that is not a thenable. *)
Definition settlement_of (result : value) : settlement :=
  if instanceof_Error result then Rejected result else Fulfilled result.

(** An entry after lines 242-246 ran with [result]: rejected with an Error,
    fulfilled with any other value, unless that is a thenable, which the
    promise follows, pending until it has settled the same way. *)
Definition resolved_as (result : value) (e : Entry) : Prop :=
  if is_thenable result
  then follows e = Some result ∧
       (slot e = Pending ∨ slot e = settled (fate_of result))
  else slot e = settlement_of result ∧ follows e = None.

(** The entries once the reactions on the outcome [o] are over. *)
Definition settled_as (o : outcome) (es : list Entry) : Prop :=
  match o with
  | Fulfils results =>
      ∀ i e, es !! i = Some e → resolved_as (result_at results i) e
  | Rejects error =>
      ∀ e, e ∈ es → slot e = Rejected error ∧ follows e = None
  end.

Definition is_removed (p : stage) : bool :=
  match p with Removed _ => true | _ => false end.

Definition batch_ok (batch : Batch) : Prop :=
  entries batch ≠ [] ∧
  match progress batch with
  | Accumulating | InFlight | Mapped (Rejects _) =>
      fired batch = 0%nat ∧ all_pending (entries batch)
  | Mapped o | Caught o => fired batch = 0%nat ∧ settled_as o (entries batch)
  | Signalled o | Removed o =>
      fired batch = 1%nat ∧ settled_as o (entries batch)
  end.

Record wf (s : State) : Prop := {
  wf_batch : ∀ b batch, heap s !! b = Some batch → batch_ok batch;
  wf_current : ∀ b batch, heap s !! b = Some batch →
    (current s = Some b ↔ progress batch = Accumulating);
  wf_current_dom : ∀ b, current s = Some b → is_Some (heap s !! b);
  wf_all : ∀ b batch, heap s !! b = Some batch →
    (b ∈ all s ↔ is_removed (progress batch) = false);
  wf_all_dom : ∀ b, b ∈ all s → is_Some (heap s !! b);
  wf_calls : ∀ b batch, heap s !! b = Some batch →
    (b ∈ (calls s).*1 ↔ progress batch ≠ Accumulating);
  wf_calls_args : ∀ b items, (b, items) ∈ calls s →
    ∃ batch, heap s !! b = Some batch ∧ items = item <$> entries batch;
  wf_calls_nodup : NoDup (calls s).*1;
  wf_timers : ∀ t tm, timers s !! t = Some tm →
    current s = Some (timer_batch tm) ∧
    ∃ batch, heap s !! timer_batch tm = Some batch ∧ timeout batch = Some t;
  wf_flushes : ∀ f fl, flushes s !! f = Some fl →
    waiting fl = awaited fl ∩ all s ∧
    (∀ b, b ∈ awaited fl → is_Some (heap s !! b)) ∧
    (resumed fl = true → waiting fl = ∅);
}.

(** The outcome of the call of [fn] the [then] reaction has seen. *)
Definition outcome_of (p : stage) : option outcome :=
  match p with
  | Accumulating | InFlight => None
  | Mapped o | Caught o | Signalled o | Removed o => Some o
  end.


(** Events other than the calls of [release] and [flush] by the user. *)
Definition automatic (e : event) : Prop :=
  match e with Release | Flush => False | _ => True end.

End Machine.

(** ** What a history took in and handed over *)

Section Accounting.

Context {Item : Type}.
Variable options : ThresholdOptions Item.

(** The [size] computed at the top of [process]. *)
Definition item_size (it : Item) : Z :=
  from_option (λ o, calculate o it) 0 (size_options options).

Definition total_size (items : list Item) : Z :=
  foldr (λ it acc, item_size it + acc) 0 items.

(** The items the calls of [process] in a history did not throw out. *)
Definition accepted (history : list (event (Item := Item))) : list Item :=
  omap (λ e, match e with
             | Process it =>
                 if too_large options (item_size it) then None else Some it
             | _ => None
             end) history.

(** The items handed to [process] in a history. *)
Definition submitted (history : list (event (Item := Item))) : list Item :=
  omap (λ e, match e with Process it => Some it | _ => None end) history.

(** The sizes computed for the items [process] was given are added up as
    JavaScript numbers.  Integers are added exactly as long as no sum leaves
    the range of the integers a double holds exactly; that holds for every
    sum [process] forms when the magnitudes of all the sizes together stay
    within [2 ^ 53]. *)
Definition magnitude (items : list Item) : Z :=
  foldr (λ it acc, Z.abs (item_size it) + acc) 0 items.

Definition exact_sizes (history : list (event (Item := Item))) : Prop :=
  magnitude (submitted history) ≤ 2 ^ 53.

(** Events that cannot hand the open batch over when neither a count nor a
    size is configured: all but [release], [flush] and, with a delay
    configured, a timer that fires. *)
Definition keeps_open (e : event (Item := Item)) : Prop :=
  match e with
  | Release | Flush => False
  | Timeout _ => delay options = None
  | _ => True
  end.

(** The items of the open batch. *)
Definition open_items (s : State Item) : list Item :=
  from_option (λ batch, item <$> entries batch) [] (current_batch s).

(** Everything handed to the processing function so far, followed by what
    is still accumulating. *)
Definition stream (s : State Item) : list Item :=
  concat ((calls s).*2) ++ open_items s.

(** Every entry of [s] is still in its batch, at its index and with its
    item, in [s'], and a promise settled in [s] is settled the same way in
    [s']. *)
Definition keeps_entries (s s' : State Item) : Prop :=
  ∀ b batch i e,
    heap s !! b = Some batch → entries batch !! i = Some e →
    ∃ batch' e',
      heap s' !! b = Some batch' ∧ entries batch' !! i = Some e' ∧
      item e' = item e ∧ (slot e ≠ Pending → slot e' = slot e).

End Accounting.

(** ** Processors used as examples *)

Definition no_thresholds : ThresholdOptions Z :=
  {| count := None; delay := None; size_options := None |}.

Definition by_count (k : Z) : ThresholdOptions Z :=
  {| count := Some k; delay := None; size_options := None |}.

Definition by_delay (d : Z) : ThresholdOptions Z :=
  {| count := None; delay := Some d; size_options := None |}.

Definition by_size (limit : Z) (hard : bool) : ThresholdOptions Z :=
  {| count := None; delay := None;
     size_options :=
       Some {| size_max := limit; calculate := λ n, n; strict := hard |} |}.

(** Per-item results as in the README: three items, two values and an Error
    for the third (integers stand in for the README's reciprocals). *)
Definition partial_failure : list (event (Item := Z)) :=
  [Process 2; Process 1; Process 0; Release;
   Settle 0 (Returns (VArray [VNum 5; VNum 1; VError "divide by zero"]))].

Definition partial_failure_batch : Batch Z :=
  {| entries :=
       [{| item := 2; slot := Fulfilled (VNum 5); follows := None |};
        {| item := 1; slot := Fulfilled (VNum 1); follows := None |};
        {| item := 0; slot := Rejected (VError "divide by zero"); follows := None |}];
     total := 0; timeout := None; fired := 0;
     progress :=
       Mapped (Fulfils (VArray [VNum 5; VNum 1; VError "divide by zero"])) |}.

(** A result whose first index throws when read. *)
Definition trapped : value := VExotic [inr (VError "trap")].

Definition trapped_batch : Batch Z :=
  {| entries := [{| item := 7; slot := Rejected (VError "trap"); follows := None |}];
     total := 0; timeout := None; fired := 0;
     progress := Mapped (Fulfils trapped) |}.

(** A result that holds a promise which rejects later on. *)
Definition late_rejection : value := VThenable (inr (VStr "late")).

Definition followed : list (event (Item := Z)) :=
  [Process 1; Release; Settle 0 (Returns (VArray [late_rejection]))].

Definition followed_batch : Batch Z :=
  {| entries :=
       [{| item := 1; slot := Pending; follows := Some late_rejection |}];
     total := 0; timeout := None; fired := 0;
     progress := Mapped (Fulfils (VArray [late_rejection])) |}.

Definition adopted_batch : Batch Z :=
  {| entries :=
       [{| item := 1; slot := Rejected (VStr "late");
           follows := Some late_rejection |}];
     total := 0; timeout := None; fired := 0;
     progress := Mapped (Fulfils (VArray [late_rejection])) |}.

(** A result that holds a promise which has not settled when
    [batch.resolve] is called. *)
Definition slow : value := VThenable (inl (VNum 1)).

Definition signalled_early : list (event (Item := Z)) :=
  [Process 1; Release; Settle 0 (Returns (VArray [slow])); Catch 0; Finally 0].

Definition signalled_early_batch : Batch Z :=
  {| entries := [{| item := 1; slot := Pending; follows := Some slow |}];
     total := 0; timeout := None; fired := 1;
     progress := Signalled (Fulfils (VArray [slow])) |}.

(** The test "maps fn results": three items, a result of length two. *)
Definition short_result : list (event (Item := Z)) :=
  [Process 1; Process 2; Process 3; Release;
   Settle 0 (Awaitable (Fulfils (VArray [VNum 0; VError "nope"])))].

Definition short_result_batch : Batch Z :=
  {| entries :=
       [{| item := 1; slot := Fulfilled (VNum 0); follows := None |};
        {| item := 2; slot := Rejected (VError "nope"); follows := None |};
        {| item := 3; slot := Fulfilled VUndefined; follows := None |}];
     total := 0; timeout := None; fired := 0;
     progress := Mapped (Fulfils (VArray [VNum 0; VError "nope"])) |}.


(** Options that leave [strict] out. *)
Definition strict_by_default : RawOptions Z :=
  {| raw_count := None; raw_delay := None;
     raw_size :=
       Some {| raw_max := 0; raw_calculate := λ n, n; raw_strict := None |} |}.

(** The test "fails all items when fn throws", up to [batch.resolve]. *)
Definition total_failure : list (event (Item := Z)) :=
  [Process 1; Process 2; Release; Settle 0 (Throws (VStr "nope"));
   Catch 0; Finally 0].

Definition total_failure_batch : Batch Z :=
  {| entries := [{| item := 1; slot := Rejected (VStr "nope"); follows := None |};
                 {| item := 2; slot := Rejected (VStr "nope"); follows := None |}];
     total := 0; timeout := None; fired := 1;
     progress := Signalled (Rejects (VStr "nope")) |}.

(** The test "drains all batches on flush", both batches completing. *)
Definition drained : list (event (Item := Z)) :=
  [Process 1; Release; Process 2; Flush;
   Settle 0 (Returns VUndefined); Catch 0; Finally 0; Delete 0;
   Settle 1 (Returns VUndefined); Catch 1; Finally 1; Delete 1;
   Resume 0].

Definition drained_flush : Flushing :=
  {| awaited := {[0%nat; 1%nat]}; waiting := ∅; resumed := true |}.

(** An item submitted after [flush] while the flushed batch completes. *)
Definition late_submission : list (event (Item := Z)) :=
  [Process 1; Flush; Process 2;
   Settle 0 (Returns VUndefined); Catch 0; Finally 0; Delete 0; Resume 0].

(** A batch released by hand and a second one opened before the timer of the
    first could fire. *)
Definition reopened : list (event (Item := Z)) :=
  [Process 1; Release; Process 2].

(** The test "releases at count threshold". *)
Definition five_by_two : list (event (Item := Z)) :=
  [Process 1; Process 2; Process 3; Process 4; Process 5].

(** A batch released by hand before the count threshold is reached. *)
Definition released_early : list (event (Item := Z)) :=
  [Process 1; Release; Process 2; Process 3; Process 4].

Definition lenient (limit : Z) : SizeOptions Z :=
  {| size_max := limit; calculate := λ n, n; strict := false |}.

Definition one_open : Batch Z :=
  {| entries := [{| item := 1; slot := Pending; follows := None |}];
     total := 1; timeout := None; fired := 0; progress := Accumulating |}.

(** ** The invariant holds in every reachable state *)

Section Invariant.

Context {Item : Type}.
Variable options : ThresholdOptions Item.

#[local] Abbreviation Entry := (Entry Item).
#[local] Abbreviation Batch := (Batch Item).
#[local] Abbreviation State := (State Item).

Lemma wf_init : wf (init (Item := Item)).
Proof.
  split; simpl; try done; try set_solver.
  constructor.
Qed.

Lemma alter_as_insert {A} (f : A → A) (l : list A) i x :
  l !! i = Some x → alter f i l = <[i := f x]> l.
Proof.
  revert i. induction l as [|y l IH]; intros [|i] H; simplify_eq/=; try done.
  f_equal. by apply IH.
Qed.

(** A batch already created is replaced by a version of itself at the same
    point of its life. *)
Lemma wf_replace (s : State) b batch batch' :
  wf s →
  heap s !! b = Some batch →
  batch_ok batch' →
  (progress batch' = Accumulating ↔ progress batch = Accumulating) →
  is_removed (progress batch') = is_removed (progress batch) →
  timeout batch' = timeout batch →
  (progress batch ≠ Accumulating →
   item <$> entries batch' = item <$> entries batch) →
  wf (set_heap (<[b := batch']> (heap s)) s).
Proof.
  intros Hwf Hb Hok Hacc Hrem Htime Hitems.
  assert (Hlt : (b < length (heap s))%nat) by by eapply lookup_lt_Some.
  split; simpl.
  - intros b' x [(-> & <- & _)|[? ?]]%list_lookup_insert_Some; [done|].
    by eapply wf_batch.
  - intros b' x [(-> & <- & _)|[? ?]]%list_lookup_insert_Some.
    + rewrite Hacc. by apply wf_current.
    + by apply wf_current.
  - intros b' H. apply list_lookup_insert_is_Some. by apply wf_current_dom.
  - intros b' x [(-> & <- & _)|[? ?]]%list_lookup_insert_Some.
    + rewrite Hrem. by apply wf_all.
    + by apply wf_all.
  - intros b' H. apply list_lookup_insert_is_Some. by apply wf_all_dom.
  - intros b' x [(-> & <- & _)|[? ?]]%list_lookup_insert_Some.
    + rewrite Hacc. by apply wf_calls.
    + by apply wf_calls.
  - intros b' items H.
    destruct (wf_calls_args s Hwf b' items H) as (x & Hx & ->).
    destruct (decide (b' = b)) as [->|Hne].
    + exists batch'. rewrite list_lookup_insert_eq by done. split; [done|].
      simplify_eq. symmetry. apply Hitems.
      apply (wf_calls s Hwf b batch Hb). apply list_elem_of_fmap.
      by exists (b, item <$> entries batch).
    + exists x. by rewrite list_lookup_insert_ne.
  - by apply wf_calls_nodup.
  - intros t tm H. destruct (wf_timers s Hwf t tm H) as (Hc & x & Hx & Ht).
    split; [done|]. destruct (decide (timer_batch tm = b)) as [Heq|Hne].
    + exists batch'. rewrite Heq in *. rewrite list_lookup_insert_eq by done.
      split; [done|]. simplify_eq. congruence.
    + exists x. by rewrite list_lookup_insert_ne.
  - intros f fl H. destruct (wf_flushes s Hwf f fl H) as (? & ? & ?).
    split_and!; [done| |done].
    intros b' Hb'. apply list_lookup_insert_is_Some. auto.
Qed.

Lemma current_accumulating (s : State) b :
  wf s → current s = Some b →
  ∃ batch, heap s !! b = Some batch ∧ progress batch = Accumulating.
Proof.
  intros Hwf Hc. destruct (wf_current_dom s Hwf b Hc) as [batch Hb].
  exists batch. split; [done|]. by apply (wf_current s Hwf b batch Hb).
Qed.

Lemma release_wf (s : State) : wf s → wf (release s).
Proof.
  intros Hwf. unfold release.
  destruct (current s) as [b|] eqn:Hc; [|done].
  destruct (current_accumulating s b Hwf Hc) as (batch & Hb & Hacc).
  rewrite Hb.
  assert (Hlt : (b < length (heap s))%nat) by by eapply lookup_lt_Some.
  pose proof (wf_batch s Hwf b batch Hb) as [Hne Hok]. rewrite Hacc in Hok.
  split; simpl.
  - intros b' x [(<- & <- & _)|[? ?]]%list_lookup_insert_Some.
    + by split.
    + by eapply wf_batch.
  - intros b' x [(<- & <- & _)|[Hb' Hx]]%list_lookup_insert_Some; [done|].
    split; [done|]. intros Hp.
    apply (wf_current s Hwf b' x Hx) in Hp. congruence.
  - done.
  - intros b' x [(<- & <- & _)|[? ?]]%list_lookup_insert_Some.
    + simpl. split; [done|]. intros _.
      apply (wf_all s Hwf b batch Hb). by rewrite Hacc.
    + by apply wf_all.
  - intros b' H. apply list_lookup_insert_is_Some. by apply wf_all_dom.
  - intros b' x. rewrite fmap_app. simpl.
    rewrite elem_of_app, list_elem_of_singleton.
    intros [(<- & <- & _)|[Hb' Hx]]%list_lookup_insert_Some.
    + simpl. split; [done|]. auto.
    + rewrite <- (wf_calls s Hwf b' x Hx). split; [|by left].
      by intros [?|?].
  - intros b' items [H|H%list_elem_of_singleton]%elem_of_app;
      [|injection H as -> ->].
    + destruct (wf_calls_args s Hwf b' items H) as (x & Hx & ->).
      destruct (decide (b' = b)) as [->|Hb'].
      * simplify_eq. exists (set_progress InFlight batch).
        by rewrite list_lookup_insert_eq.
      * exists x. by rewrite list_lookup_insert_ne.
    + exists (set_progress InFlight batch). by rewrite list_lookup_insert_eq.
  - rewrite fmap_app. apply NoDup_app. split_and!.
    + by apply wf_calls_nodup.
    + intros b' Hin ->%list_elem_of_singleton.
      by apply (wf_calls s Hwf b batch Hb) in Hin.
    + apply NoDup_singleton.
  - intros t tm Ht. exfalso.
    assert (timers s !! t = Some tm) as Hold.
    { unfold clearTimeout in Ht. destruct (timeout batch); [|done].
      by apply lookup_delete_Some in Ht as [_ ?]. }
    destruct (wf_timers s Hwf t tm Hold) as (Hcur & x & Hx & Htime).
    rewrite Hc in Hcur. simplify_eq. rewrite Htime in Ht. simpl in Ht.
    by rewrite lookup_delete_eq in Ht.
  - intros f fl H. destruct (wf_flushes s Hwf f fl H) as (? & ? & ?).
    split_and!; [done| |done].
    intros b' Hb'. apply list_lookup_insert_is_Some. auto.
Qed.

Lemma release_current (s : State) : current (release s) = None.
Proof.
  unfold release. destruct (current s) as [b|] eqn:Hc; [|done].
  by destruct (heap s !! b).
Qed.

Lemma push_wf (s : State) b it sz :
  wf s → current s = Some b →
  wf (set_heap (alter (push it sz) b (heap s)) s).
Proof.
  intros Hwf Hc.
  destruct (current_accumulating s b Hwf Hc) as (batch & Hb & Hacc).
  rewrite (alter_as_insert _ _ _ _ Hb).
  pose proof (wf_batch s Hwf b batch Hb) as [Hne Hok]. rewrite Hacc in Hok.
  apply (wf_replace s b batch); try done.
  split; simpl.
  - by destruct (entries batch).
  - rewrite Hacc. split; [tauto|].
    intros e [He| ->%list_elem_of_singleton]%elem_of_app; [|by split].
    by apply Hok.
Qed.

Lemma open_push_heap (s : State) it sz :
  alter (push it sz) (length (heap s)) (heap (open options s)) =
  heap s ++
    [push it sz {| entries := []; total := 0;
                   timeout := (λ _, next_timer s) <$> delay options;
                   fired := 0; progress := Accumulating |}].
Proof.
  simpl. rewrite alter_app_r_alt by lia. by rewrite Nat.sub_diag.
Qed.

Lemma open_push_wf (s : State) it sz :
  wf s → current s = None →
  wf (set_heap (alter (push it sz) (length (heap s)) (heap (open options s)))
        (open options s)).
Proof.
  intros Hwf Hc. rewrite open_push_heap.
  assert (Hfresh : ∀ b x, heap s !! b = Some x → b ≠ length (heap s)).
  { intros b x Hx%lookup_lt_Some. lia. }
  assert (Hnotimer : ∀ t, timers s !! t = None).
  { intros t. destruct (timers s !! t) as [tm|] eqn:Ht; [|done].
    destruct (wf_timers s Hwf t tm Ht) as [? _]. congruence. }
  split; simpl.
  - intros b x [[_ Hx]|[-> <-]]%lookup_snoc_Some; [by eapply wf_batch|].
    split; simpl; [done|]. split; [done|].
    by intros e ->%list_elem_of_singleton.
  - intros b x [[_ Hx]|[-> <-]]%lookup_snoc_Some; [|done].
    pose proof (Hfresh b x Hx).
    rewrite <- (wf_current s Hwf b x Hx), Hc. split; [|done].
    intros [= ?]. done.
  - intros b [= <-]. rewrite lookup_app_r, Nat.sub_diag by lia. by eexists.
  - intros b x [[_ Hx]|[-> <-]]%lookup_snoc_Some.
    + pose proof (Hfresh b x Hx).
      rewrite <- (wf_all s Hwf b x Hx), elem_of_union, elem_of_singleton.
      tauto.
    + simpl. set_solver.
  - intros b [->%elem_of_singleton|Hb]%elem_of_union.
    + rewrite lookup_app_r, Nat.sub_diag by lia. by eexists.
    + destruct (wf_all_dom s Hwf b Hb) as [x Hx]. exists x.
      by apply lookup_app_l_Some.
  - intros b x [[_ Hx]|[-> <-]]%lookup_snoc_Some; [by apply wf_calls|].
    simpl. split; [|done]. intros ([b items] & Heq & Hin)%list_elem_of_fmap.
    simpl in Heq. subst b.
    destruct (wf_calls_args s Hwf _ _ Hin) as (x & Hx & _).
    by destruct (Hfresh _ _ Hx).
  - intros b items H.
    destruct (wf_calls_args s Hwf b items H) as (x & Hx & ->).
    exists x. split; [|done]. by apply lookup_app_l_Some.
  - by apply wf_calls_nodup.
  - intros t tm Ht. destruct (delay options) as [d|] eqn:Hd.
    + apply lookup_insert_Some in Ht as [[<- <-]|[_ Ht]];
        [|by rewrite Hnotimer in Ht].
      simpl. split; [done|]. eexists.
      by rewrite lookup_app_r, Nat.sub_diag by lia.
    + by rewrite Hnotimer in Ht.
  - intros f fl H. destruct (wf_flushes s Hwf f fl H) as (Hw & Hdom & ?).
    split_and!; [| |done].
    + rewrite Hw. apply set_eq. intros b.
      rewrite !elem_of_intersection, elem_of_union, elem_of_singleton.
      split; [tauto|]. intros [Hb [->|?]]; [|done].
      destruct (Hdom _ Hb) as [x Hx]. by destruct (Hfresh _ _ Hx).
    + intros b Hb. destruct (Hdom b Hb) as [x Hx]. exists x.
      by apply lookup_app_l_Some.
Qed.

Lemma make_room_wf (s : State) sz : wf s → wf (make_room options sz s).
Proof.
  intros Hwf. unfold make_room.
  destruct (overflows _ _ _); [by apply release_wf|done].
Qed.

Lemma check_thresholds_wf (s : State) : wf s → wf (check_thresholds options s).
Proof.
  intros Hwf. unfold check_thresholds.
  destruct (from_option _ _ _); [by apply release_wf|done].
Qed.

Lemma enqueue_wf (s : State) it sz b :
  wf s → current (ensure_open options s) = Some b →
  wf (enqueue it sz b (ensure_open options s)).
Proof.
  intros Hwf. unfold ensure_open, enqueue.
  destruct (current s) as [c|] eqn:Hc.
  - intros Hb. by apply push_wf.
  - simpl. intros [= <-]. by apply open_push_wf.
Qed.

Lemma process_wf (s : State) it : wf s → wf (process options it s).1.
Proof.
  intros Hwf. unfold process. destruct (too_large _ _); [done|].
  generalize (from_option (λ o, calculate o it) 0 (size_options options)).
  intros sz. pose proof (make_room_wf s sz Hwf) as Hwf1.
  destruct (current (ensure_open options (make_room options sz s)))
    as [b|] eqn:Hc; simpl.
  - by apply check_thresholds_wf, enqueue_wf.
  - unfold ensure_open in *.
    by destruct (current (make_room options sz s)).
Qed.

Lemma item_complete result (e : Entry) : item (complete result e) = item e.
Proof.
  unfold complete, entry_reject, entry_resolve.
  by destruct (instanceof_Error result), (slot e), (follows e),
    (is_thenable result).
Qed.

Lemma item_entry_reject error (e : Entry) : item (entry_reject error e) = item e.
Proof. unfold entry_reject. by destruct (slot e), (follows e). Qed.

Lemma on_settled_items o (batch : Batch) :
  item <$> entries (on_settled o batch) = item <$> entries batch.
Proof.
  destruct o as [results|error]; [|done]. simpl.
  apply list_eq. intros i.
  rewrite !list_lookup_fmap, list_lookup_imap.
  destruct (entries batch !! i) as [e|]; [|done]. simpl.
  by rewrite item_complete.
Qed.

Lemma on_caught_items o (batch : Batch) :
  item <$> entries (on_caught o batch) = item <$> entries batch.
Proof.
  destruct o as [results|error]; [done|]. simpl.
  rewrite <- list_fmap_compose. apply list_fmap_ext.
  intros i e _. apply item_entry_reject.
Qed.

Lemma on_settled_ok o (batch : Batch) :
  batch_ok batch → progress batch = InFlight → batch_ok (on_settled o batch).
Proof.
  intros [Hne Hok] Hp. rewrite Hp in Hok. destruct Hok as [Hfired Hpend].
  split.
  - intros Hnil. apply Hne. apply (f_equal (fmap item)) in Hnil.
    rewrite on_settled_items in Hnil. by apply fmap_nil_inv in Hnil.
  - destruct o as [results|error]; simpl; (split; [done|]); [|done].
    intros i e. rewrite list_lookup_imap.
    destruct (entries batch !! i) as [e0|] eqn:He0; [|done].
    intros [= <-].
    destruct (Hpend e0) as [Hs Hf]; [by eapply list_elem_of_lookup_2|].
    generalize (result_at results i). intros v.
    unfold resolved_as, complete, settlement_of, entry_reject, entry_resolve.
    rewrite Hs, Hf. destruct v; simpl; try done. split; [done|by left].
Qed.

Lemma on_caught_ok o (batch : Batch) :
  batch_ok batch → progress batch = Mapped o → batch_ok (on_caught o batch).
Proof.
  intros [Hne Hok] Hp. rewrite Hp in Hok.
  split.
  - intros Hnil. apply Hne. apply (f_equal (fmap item)) in Hnil.
    rewrite on_caught_items in Hnil. by apply fmap_nil_inv in Hnil.
  - destruct o as [results|error]; simpl; [done|].
    destruct Hok as [Hfired Hpend]. split; [done|].
    intros e (e0 & -> & He0)%list_elem_of_fmap.
    destruct (Hpend e0 He0) as [Hs Hf].
    unfold entry_reject. by rewrite Hs, Hf.
Qed.

Lemma on_finally_ok o (batch : Batch) :
  batch_ok batch → progress batch = Caught o → batch_ok (on_finally o batch).
Proof.
  intros [Hne Hok] Hp. rewrite Hp in Hok. destruct Hok as [Hfired Hs].
  split; simpl; [done|]. by rewrite Hfired.
Qed.

Lemma entry_adopt_keeps (e : Entry) :
  item (entry_adopt e) = item e ∧ follows (entry_adopt e) = follows e ∧
  (slot e ≠ Pending → slot (entry_adopt e) = slot e).
Proof.
  unfold entry_adopt.
  destruct (slot e) eqn:Hs, (follows e) eqn:Hf; simpl; split_and!;
    congruence.
Qed.

Lemma on_adopted_fields index (batch : Batch) :
  progress (on_adopted index batch) = progress batch ∧
  timeout (on_adopted index batch) = timeout batch ∧
  total (on_adopted index batch) = total batch ∧
  fired (on_adopted index batch) = fired batch.
Proof.
  unfold on_adopted.
  destruct (progress batch) as [| |[]|[]|[]|[]] eqn:Hp; simpl;
    by rewrite ?Hp.
Qed.

Lemma on_adopted_items index (batch : Batch) :
  item <$> entries (on_adopted index batch) = item <$> entries batch.
Proof.
  assert (item <$> alter entry_adopt index (entries batch) =
          item <$> entries batch) as Halter.
  { apply list_eq. intros i. rewrite !list_lookup_fmap, list_lookup_alter.
    case_decide; [|done]. subst i.
    destruct (entries batch !! index) as [e|]; [|done]. simpl.
    by destruct (entry_adopt_keeps e) as [-> _]. }
  unfold on_adopted. by destruct (progress batch) as [| |[]|[]|[]|[]].
Qed.

Lemma resolved_as_adopt result (e : Entry) :
  resolved_as result e → resolved_as result (entry_adopt e).
Proof.
  unfold resolved_as, entry_adopt. destruct (is_thenable result).
  - intros [Hf Hs]. rewrite Hf.
    destruct (slot e) eqn:Hslot; simpl; rewrite ?Hf, ?Hslot; [|done..].
    split; [done|by right].
  - intros [Hs Hf]. rewrite Hf. by destruct (slot e) eqn:Hslot; rewrite Hslot, Hf.
Qed.

Lemma on_adopted_ok index (batch : Batch) :
  batch_ok batch → batch_ok (on_adopted index batch).
Proof.
  intros [Hne Hok]. split.
  - intros Hnil. apply Hne. apply (f_equal (fmap item)) in Hnil.
    rewrite on_adopted_items in Hnil. by apply fmap_nil_inv in Hnil.
  - assert (∀ results, settled_as (Fulfils results) (entries batch) →
      settled_as (Fulfils results)
        (alter entry_adopt index (entries batch))) as Hkeep.
    { intros results Hs i e. rewrite list_lookup_alter.
      case_decide as Hi.
      - subst i. destruct (entries batch !! index) as [e0|] eqn:He0; [|done].
        intros [= <-]. by apply resolved_as_adopt, Hs.
      - by apply Hs. }
    unfold on_adopted.
    destruct (progress batch) as [| |[]|[]|[]|[]] eqn:Hp; simpl;
      rewrite ?Hp; try done; (split; [tauto|]); apply Hkeep; tauto.
Qed.

Lemma on_signalled_wf (s : State) b o batch :
  wf s → heap s !! b = Some batch → progress batch = Signalled o →
  wf (on_signalled b o batch s).
Proof.
  intros Hwf Hb Hp.
  assert (Hlt : (b < length (heap s))%nat) by by eapply lookup_lt_Some.
  pose proof (wf_batch s Hwf b batch Hb) as [Hne Hok]. rewrite Hp in Hok.
  split; simpl.
  - intros b' x [(<- & <- & _)|[? ?]]%list_lookup_insert_Some; [done|].
    by eapply wf_batch.
  - intros b' x [(<- & <- & _)|[? ?]]%list_lookup_insert_Some.
    + simpl. rewrite (wf_current s Hwf b batch Hb), Hp. done.
    + by apply wf_current.
  - intros b' H. apply list_lookup_insert_is_Some. by apply wf_current_dom.
  - intros b' x [(<- & <- & _)|[? Hx]]%list_lookup_insert_Some.
    + simpl. rewrite elem_of_difference, elem_of_singleton. split; [tauto|done].
    + rewrite <- (wf_all s Hwf b' x Hx), elem_of_difference, elem_of_singleton.
      split; [tauto|]. intros ?. split; [done|]. congruence.
  - intros b' [H _]%elem_of_difference.
    apply list_lookup_insert_is_Some. by apply wf_all_dom.
  - intros b' x [(<- & <- & _)|[? ?]]%list_lookup_insert_Some.
    + simpl. rewrite (wf_calls s Hwf b batch Hb), Hp. done.
    + by apply wf_calls.
  - intros b' items H.
    destruct (wf_calls_args s Hwf b' items H) as (x & Hx & ->).
    destruct (decide (b' = b)) as [->|Hb'].
    + simplify_eq. exists (set_progress (Removed o) batch).
      by rewrite list_lookup_insert_eq.
    + exists x. by rewrite list_lookup_insert_ne.
  - by apply wf_calls_nodup.
  - intros t tm H. destruct (wf_timers s Hwf t tm H) as (Hc & x & Hx & Ht).
    split; [done|]. destruct (decide (timer_batch tm = b)) as [Heq|Hb'].
    + exists (set_progress (Removed o) batch). rewrite Heq in *.
      rewrite list_lookup_insert_eq by done. split; [done|].
      simplify_eq. done.
    + exists x. by rewrite list_lookup_insert_ne.
  - intros f fl. rewrite list_lookup_fmap.
    destruct (flushes s !! f) as [fl0|] eqn:H; [|done]. intros [= <-]. simpl.
    destruct (wf_flushes s Hwf f fl0 H) as (Hw & Hdom & Hres).
    split_and!.
    + rewrite Hw. set_solver.
    + intros b' Hb'. apply list_lookup_insert_is_Some. auto.
    + intros Hr. rewrite (Hres Hr). set_solver.
Qed.

Lemma set_timers_wf (s : State) t : wf s → wf (set_timers (delete t (timers s)) s).
Proof.
  intros Hwf. destruct Hwf. split; simpl; try done.
  intros t' tm [_ H]%lookup_delete_Some. auto.
Qed.

Lemma on_timeout_wf (s : State) next : wf s → wf (on_timeout next s).
Proof.
  intros Hwf. unfold on_timeout. case_decide; [by apply release_wf|done].
Qed.

Lemma flush_wf (s : State) : wf s → wf (flush s).1.
Proof.
  intros Hwf. simpl. apply release_wf.
  pose proof (wf_all_dom s Hwf) as Hdom.
  destruct Hwf. split; simpl; try done.
  intros f fl [[_ H]|[_ <-]]%lookup_snoc_Some; [by apply (wf_flushes0 f)|].
  simpl.
  split_and!; [set_solver|exact wf_all_dom0|done].
Qed.

Lemma resume_wf (s : State) f : wf s → wf (set_flushes (alter on_all f (flushes s)) s).
Proof.
  intros Hwf. pose proof (wf_flushes s Hwf) as Hfl.
  destruct Hwf. split; simpl; try done.
  intros f' fl. destruct (decide (f = f')) as [<-|Hne].
  - rewrite list_lookup_alter_eq.
    destruct (flushes s !! f) as [fl0|] eqn:H; [|done]. intros [= <-].
    destruct (Hfl f fl0 H) as (? & ? & ?).
    unfold on_all. case_decide; by split_and!.
  - rewrite list_lookup_alter_ne by done. apply Hfl.
Qed.

Theorem step_wf (s : State) e : wf s → wf (step options s e).
Proof.
  intros Hwf. destruct e as [it| | |t|b r|b|b|b|f|b index]; simpl.
  - by apply process_wf.
  - by apply release_wf.
  - by apply (flush_wf s).
  - destruct (timers s !! t); [|done].
    by apply on_timeout_wf, set_timers_wf.
  - destruct (heap s !! b) as [batch|] eqn:Hb; [|done].
    destruct (progress batch) eqn:Hp; try done.
    apply (wf_replace s b batch _ Hwf Hb).
    + apply on_settled_ok; [by eapply wf_batch|done].
    + simpl. by rewrite Hp.
    + simpl. by rewrite Hp.
    + by destruct (async_fn r).
    + intros _. apply on_settled_items.
  - destruct (heap s !! b) as [batch|] eqn:Hb; [|done].
    destruct (progress batch) eqn:Hp; try done.
    apply (wf_replace s b batch _ Hwf Hb).
    + apply on_caught_ok; [by eapply wf_batch|done].
    + simpl. by rewrite Hp.
    + simpl. by rewrite Hp.
    + by destruct o.
    + intros _. apply on_caught_items.
  - destruct (heap s !! b) as [batch|] eqn:Hb; [|done].
    destruct (progress batch) eqn:Hp; try done.
    apply (wf_replace s b batch _ Hwf Hb).
    + apply on_finally_ok; [by eapply wf_batch|done].
    + simpl. by rewrite Hp.
    + simpl. by rewrite Hp.
    + done.
    + done.
  - destruct (heap s !! b) as [batch|] eqn:Hb; [|done].
    destruct (progress batch) eqn:Hp; try done.
    by eapply on_signalled_wf.
  - by apply resume_wf.
  - destruct (heap s !! b) as [batch|] eqn:Hb; [|done].
    destruct (on_adopted_fields index batch) as (Hp' & Ht' & _ & _).
    destruct (progress batch) eqn:Hp; try done;
      (apply (wf_replace s b batch _ Hwf Hb);
       [ apply on_adopted_ok; by eapply wf_batch
       | by rewrite Hp', Hp | by rewrite Hp', Hp | done
       | intros _; apply on_adopted_items ]).
Qed.

Theorem run_wf history : wf (run options history).
Proof.
  unfold run. induction history as [|e history IH] using rev_ind.
  - apply wf_init.
  - rewrite foldl_app. simpl. by apply step_wf.
Qed.

End Invariant.


(** ** What the methods do to the state *)

Section Methods.

Context {Item : Type}.
Variable options : ThresholdOptions Item.

#[local] Abbreviation Batch := (Batch Item).
#[local] Abbreviation State := (State Item).

Lemma release_flushes (s : State) : flushes (release s) = flushes s.
Proof.
  unfold release. destruct (current s) as [b|]; [|done].
  by destruct (heap s !! b).
Qed.

Lemma release_all (s : State) : all (release s) = all s.
Proof.
  unfold release. destruct (current s) as [b|]; [|done].
  by destruct (heap s !! b).
Qed.

Lemma process_flushes (s : State) it :
  flushes (process options it s).1 = flushes s.
Proof.
  unfold process. destruct (too_large _ _); [done|].
  generalize (from_option (λ o, calculate o it) 0 (size_options options)).
  intros sz.
  assert (flushes (ensure_open options (make_room options sz s)) = flushes s)
    as H2.
  { unfold ensure_open, make_room.
    destruct (overflows _ _ _), (current _); simpl;
      by rewrite ?release_flushes. }
  destruct (current (ensure_open options (make_room options sz s))) as [c|];
    simpl; [|done].
  unfold check_thresholds. destruct (from_option _ _ _); [|done].
  by rewrite release_flushes.
Qed.

Lemma flush_snapshot (s : State) :
  flushes (flush s).1 !! (flush s).2 =
    Some {| awaited := all s; waiting := all s; resumed := false |}
  ∧ current (flush s).1 = None
  ∧ all (flush s).1 = all s
  ∧ heap (flush s).1 = heap (release s)
  ∧ calls (flush s).1 = calls (release s).
Proof.
  simpl. rewrite release_flushes, release_all, release_current. simpl.
  split_and!; try done.
  - rewrite lookup_app_r, Nat.sub_diag by lia. done.
  - unfold release. simpl. destruct (current s) as [b|]; [|done].
    by destruct (heap s !! b).
  - unfold release. simpl. destruct (current s) as [b|]; [|done].
    by destruct (heap s !! b).
Qed.

(** The batch an item lands in: the entries [es] and the size [tot] of the
    open batch, or nothing and zero in a batch made for it. *)
Lemma enqueue_spec (s : State) it sz :
  wf s →
  ∃ b es tot t,
    current (ensure_open options s) = Some b ∧
    from_option entries [] (heap (ensure_open options s) !! b) = es ∧
    (current s = None → es = [] ∧ tot = 0 ∧ b = length (heap s)) ∧
    (∀ batch, current_batch s = Some batch →
       es = entries batch ∧ tot = total batch) ∧
    current (enqueue it sz b (ensure_open options s)) = Some b ∧
    calls (enqueue it sz b (ensure_open options s)) = calls s ∧
    heap (enqueue it sz b (ensure_open options s)) !! b =
      Some {| entries := es ++ [{| item := it; slot := Pending; follows := None |}];
              total := tot + sz; timeout := t; fired := 0;
              progress := Accumulating |}.
Proof.
  intros Hwf. unfold ensure_open, enqueue, current_batch.
  destruct (current s) as [c|] eqn:Hc.
  - destruct (current_accumulating s c Hwf Hc) as (batch & Hb & Hacc).
    destruct (wf_batch s Hwf c batch Hb) as [_ Hok]. rewrite Hacc in Hok.
    destruct Hok as [Hfired _].
    exists c, (entries batch), (total batch), (timeout batch).
    rewrite Hc, Hb. simpl. split_and!; try done.
    + intros batch0 Hb0. simpl in Hb0. rewrite Hb in Hb0.
      by injection Hb0 as <-.
    + rewrite list_lookup_alter_eq, Hb. simpl. unfold push.
      by rewrite Hfired, Hacc.
  - exists (length (heap s)), [], 0, ((λ _, next_timer s) <$> delay options).
    simpl. rewrite lookup_app_r, Nat.sub_diag by lia. simpl.
    split_and!; try done.
    rewrite alter_app_r_alt, Nat.sub_diag by lia. simpl.
    by rewrite lookup_app_r, Nat.sub_diag by lia.
Qed.

Lemma check_thresholds_spec (s : State) b (batch : Batch) :
  current s = Some b → heap s !! b = Some batch →
  if threshold_reached options batch
  then current (check_thresholds options s) = None ∧
       calls (check_thresholds options s) =
         calls s ++ [(b, item <$> entries batch)] ∧
       heap (check_thresholds options s) !! b =
         Some (set_progress InFlight batch)
  else check_thresholds options s = s.
Proof.
  intros Hc Hb. unfold check_thresholds, current_batch. rewrite Hc. simpl.
  rewrite Hb. simpl. destruct (threshold_reached options batch); [|done].
  unfold release. rewrite Hc, Hb. simpl. split_and!; try done.
  apply list_lookup_insert_eq. by eapply lookup_lt_Some.
Qed.

Lemma threshold_reached_iff (batch : Batch) :
  threshold_reached options batch = true ↔
    (∃ m, count options = Some m ∧ m ≤ Z.of_nat (length (entries batch))) ∨
    (∃ o, size_options options = Some o ∧ size_max o ≤ total batch).
Proof.
  unfold threshold_reached. rewrite orb_true_iff.
  destruct (count options) as [m|], (size_options options) as [o|];
    rewrite ?Z.leb_le; naive_solver.
Qed.

(** What [process] does once the item is known not to be thrown out. *)
Lemma process_accepted (s : State) it :
  wf s →
  too_large options
    (from_option (λ o, calculate o it) 0 (size_options options)) = false →
  let sz := from_option (λ o, calculate o it) 0 (size_options options) in
  let s1 := make_room options sz s in
  ∃ b es tot t,
    (process options it s).2 = inr (b, length es) ∧
    (current s1 = None → es = [] ∧ tot = 0 ∧ b = length (heap s1)) ∧
    (∀ batch, current_batch s1 = Some batch →
       es = entries batch ∧ tot = total batch) ∧
    let batch :=
      {| entries := es ++ [{| item := it; slot := Pending; follows := None |}];
         total := tot + sz; timeout := t; fired := 0;
         progress := Accumulating |} in
    if threshold_reached options batch
    then current (process options it s).1 = None ∧
         calls (process options it s).1 =
           calls s1 ++ [(b, item <$> entries batch)] ∧
         heap (process options it s).1 !! b =
           Some (set_progress InFlight batch)
    else current (process options it s).1 = Some b ∧
         calls (process options it s).1 = calls s1 ∧
         heap (process options it s).1 !! b = Some batch.
Proof.
  intros Hwf Hlarge sz s1. unfold process. cbv zeta. rewrite Hlarge.
  fold sz. fold s1. pose proof (make_room_wf options s sz Hwf) as Hwf1. fold s1 in Hwf1.
  destruct (enqueue_spec s1 it sz Hwf1)
    as (b & es & tot & t & Hb & Hes & Hnew & Hold & Hc3 & Hcalls & Hb3).
  exists b, es, tot, t. rewrite Hb. simpl. rewrite Hes.
  split_and!; try done.
  pose proof (check_thresholds_spec _ b _ Hc3 Hb3) as Hspec.
  destruct (threshold_reached options _).
  - destruct Hspec as (? & -> & ?). by rewrite Hcalls.
  - rewrite Hspec. by rewrite Hcalls.
Qed.

End Methods.

(** ** The result mapping *)

Section Mapping.

Context {Item : Type}.
Variable options : ThresholdOptions Item.

#[local] Abbreviation Entry := (Entry Item).
#[local] Abbreviation Batch := (Batch Item).
#[local] Abbreviation State := (State Item).

Lemma settlement_of_settled result : settlement_of result ≠ Pending.
Proof. unfold settlement_of. by destruct (instanceof_Error result). Qed.

(** Once the reactions are over, the promise of every entry is resolved: it
    is settled, or it follows a thenable. *)
Lemma settled_as_resolved o (es : list Entry) e :
  settled_as o es → e ∈ es →
  slot e ≠ Pending ∨ ∃ v, follows e = Some v ∧ is_thenable v = true.
Proof.
  intros Hs [i Hi]%list_elem_of_lookup. destruct o as [results|error]; simpl in Hs.
  - specialize (Hs i e Hi). unfold resolved_as in Hs.
    destruct (is_thenable (result_at results i)) eqn:Ht.
    + right. exists (result_at results i). by destruct Hs.
    + left. destruct Hs as [-> _]. apply settlement_of_settled.
  - left. destruct (Hs e) as [-> _]; [by eapply list_elem_of_lookup_2|done].
Qed.

Lemma mapped_entries (batch : Batch) results :
  batch_ok batch → outcome_of (progress batch) = Some (Fulfils results) →
  settled_as (Fulfils results) (entries batch).
Proof.
  intros [_ Hok] Ho.
  destruct (progress batch) as [| |o|o|o|o]; simplify_eq/=; tauto.
Qed.


(** The entry at [i] of a batch whose call fulfilled with [results], once
    the thenable it follows, if any, has called back. *)
Lemma adopt_settles (s : State) b (batch : Batch) results i e :
  heap s !! b = Some batch →
  outcome_of (progress batch) = Some (Fulfils results) →
  entries batch !! i = Some e →
  resolved_as (result_at results i) e →
  ∃ batch', heap (step options s (Adopt b i)) !! b = Some batch' ∧
    entries batch' !! i = Some (entry_adopt e) ∧
    (is_thenable (result_at results i) = true →
     slot (entry_adopt e) = settled (fate_of (result_at results i))).
Proof.
  intros Hb Ho He Hr.
  assert (Hlt : (b < length (heap s))%nat) by by eapply lookup_lt_Some.
  exists (on_adopted i batch). simpl. rewrite Hb. split_and!.
  - destruct (progress batch); simplify_eq/=;
      by rewrite list_lookup_insert_eq.
  - unfold on_adopted.
    destruct (progress batch) as [| |[]|[]|[]|[]]; simplify_eq/=;
      by rewrite list_lookup_alter_eq, He.
  - intros Ht. unfold resolved_as in Hr. rewrite Ht in Hr.
    destruct Hr as [Hf [Hs|Hs]]; unfold entry_adopt; rewrite Hf, Hs.
    + done.
    + destruct (fate_of (result_at results i)) eqn:Hfate; simpl;
        by rewrite ?Hs.
Qed.

(** C1 (as amended): once the call of the processing function for a batch
    has fulfilled with an indexable value, the promise of the entry at index
    [i], which is the entry of the [i]-th item of that call, is completed
    with the value [v] that [results[i]] evaluates to and with nothing else.
    It is rejected with [v] when [v] is an instance of Error.  It is
    fulfilled with [v] when [v] is neither an Error nor a thenable.  When [v]
    is a thenable the promise is resolved with it and follows it: it is
    pending until the thenable calls back and then ends as the thenable does,
    fulfilled or rejected, or stays pending with a thenable that never calls
    back. *)
Theorem C1_result_mapping history b (batch : Batch) results i e v :
  heap (run options history) !! b = Some batch →
  outcome_of (progress batch) = Some (Fulfils results) →
  results ≠ VUndefined → results ≠ VNull →
  entries batch !! i = Some e →
  get_index results i = inl v →
  (instanceof_Error v = true → slot e = Rejected v ∧ follows e = None) ∧
  (instanceof_Error v = false → is_thenable v = false →
   slot e = Fulfilled v ∧ follows e = None) ∧
  (is_thenable v = true →
   follows e = Some v ∧ (slot e = Pending ∨ slot e = settled (fate_of v)) ∧
   ∃ batch' e',
     heap (step options (run options history) (Adopt b i)) !! b =
       Some batch' ∧
     entries batch' !! i = Some e' ∧ item e' = item e ∧
     follows e' = Some v ∧ slot e' = settled (fate_of v)) ∧
  ∃ items, (b, items) ∈ calls (run options history) ∧
    items !! i = Some (item e).
Proof.
  intros Hb Ho Hu Hn He Hv.
  pose proof (run_wf options history) as Hwf.
  pose proof (wf_batch _ Hwf b batch Hb) as Hok.
  pose proof (mapped_entries batch results Hok Ho i e He) as Hr.
  assert (result_at results i = v) as Hat.
  { unfold result_at. rewrite Hv. by destruct results. }
  split_and!.
  - intros Herr. unfold resolved_as in Hr. rewrite Hat in Hr.
    destruct v; try done; simpl in Hr; by destruct Hr as [-> ->].
  - intros Herr Hthen. unfold resolved_as, settlement_of in Hr.
    rewrite Hat, Hthen, Herr in Hr. by destruct Hr as [-> ->].
  - intros Hthen.
    destruct (adopt_settles _ b batch results i e Hb Ho He Hr)
      as (batch' & Hb' & He' & Hfate).
    rewrite Hat in Hfate. unfold resolved_as in Hr. rewrite Hat, Hthen in Hr.
    destruct Hr as [Hf Hs]. split_and!; try done.
    exists batch', (entry_adopt e).
    destruct (entry_adopt_keeps e) as (Hitem & Hfol & _).
    split_and!; try done; [congruence|by apply Hfate].
  - assert (b ∈ (calls (run options history)).*1) as Hin.
    { apply (wf_calls _ Hwf b batch Hb). intros Hp. by rewrite Hp in Ho. }
    apply list_elem_of_fmap in Hin as ([b' items] & Hq & Hin).
    simpl in Hq. subst b'. exists items. split; [done|].
    destruct (wf_calls_args _ Hwf _ _ Hin) as (batch' & Hb' & ->).
    rewrite Hb in Hb'. injection Hb' as <-.
    by rewrite list_lookup_fmap, He.
Qed.

(** C2 (as amended): after a call that fulfilled with [results], an entry
    whose index lies beyond the end of an array result, or whose batch got
    [undefined] or [null] as its result, or for which [results[i]] is
    [undefined] in any other way, is fulfilled with [undefined]; when reading
    [results[i]] throws, the value thrown is taken as the entry's result, so
    the entry is rejected with it when it is an instance of Error, resolved
    with it, and so following it, when it is a thenable, and fulfilled with
    it otherwise. *)
Theorem C2_lookup_failure history b (batch : Batch) results i e :
  heap (run options history) !! b = Some batch →
  outcome_of (progress batch) = Some (Fulfils results) →
  entries batch !! i = Some e →
  (results = VUndefined ∨ results = VNull ∨
   (∃ elements, results = VArray elements ∧ (length elements ≤ i)%nat) ∨
   get_index results i = inl VUndefined →
   slot e = Fulfilled VUndefined) ∧
  (∀ thrown, results ≠ VUndefined → results ≠ VNull →
     get_index results i = inr thrown →
     (is_thenable thrown = false →
      slot e =
        if instanceof_Error thrown then Rejected thrown
        else Fulfilled thrown) ∧
     (is_thenable thrown = true →
      follows e = Some thrown ∧
      (slot e = Pending ∨ slot e = settled (fate_of thrown)))).
Proof.
  intros Hb Ho He.
  pose proof (wf_batch _ (run_wf options history) b batch Hb) as Hok.
  pose proof (mapped_entries batch results Hok Ho i e He) as Hr.
  unfold resolved_as, settlement_of, result_at in Hr. split.
  - assert (get_index results i = inl VUndefined → slot e = Fulfilled VUndefined)
      as Hundef.
    { intros Hundef. rewrite Hundef in Hr.
      destruct results; simpl in Hr; by destruct Hr. }
    intros [->|[->|[(elements & -> & Hlen)|H]]];
      [by destruct Hr|by destruct Hr| |by apply Hundef].
    apply Hundef. simpl. by rewrite (lookup_ge_None_2 elements i Hlen).
  - intros thrown Hu Hn Hthrown. rewrite Hthrown in Hr.
    assert (match results with VUndefined | VNull => false | _ => true end
            = true) as Hix by by destruct results.
    rewrite Hix in Hr. split; intros Ht; rewrite Ht in Hr; by destruct Hr.
Qed.


End Mapping.

Lemma C1_result_mapping_witness :
  (heap (run no_thresholds partial_failure) !! 0%nat =
     Some partial_failure_batch
   ∧ get_index (VArray [VNum 5; VNum 1; VError "divide by zero"]) 2 =
       inl (VError "divide by zero")
   ∧ slot {| item := 0 : Z; slot := Rejected (VError "divide by zero");
             follows := None |} = Rejected (VError "divide by zero"))
  ∧ (heap (run no_thresholds followed) !! 0%nat = Some followed_batch
     ∧ get_index (VArray [late_rejection]) 0 = inl late_rejection
     ∧ ∃ batch' e',
         heap (run no_thresholds (followed ++ [Adopt 0 0])) !! 0%nat =
           Some batch'
         ∧ entries batch' !! 0%nat = Some e'
         ∧ slot e' = Rejected (VStr "late")).
Proof.
  split.
  - split_and!; [vm_compute; reflexivity..|].
    destruct (C1_result_mapping no_thresholds partial_failure 0
                partial_failure_batch
                (VArray [VNum 5; VNum 1; VError "divide by zero"]) 2
                {| item := 0; slot := Rejected (VError "divide by zero");
                   follows := None |}
                (VError "divide by zero")) as (Herror & _);
      [vm_compute; reflexivity|vm_compute; reflexivity|discriminate
      |discriminate|vm_compute; reflexivity|vm_compute; reflexivity|].
    by destruct Herror.
  - split_and!; [vm_compute; reflexivity..|].
    destruct (C1_result_mapping no_thresholds followed 0 followed_batch
                (VArray [late_rejection]) 0
                {| item := 1; slot := Pending;
                   follows := Some late_rejection |}
                late_rejection) as (_ & _ & Hthen & _);
      [vm_compute; reflexivity|vm_compute; reflexivity|discriminate
      |discriminate|vm_compute; reflexivity|vm_compute; reflexivity|].
    destruct Hthen as (_ & _ & batch' & e' & Hb & He & _ & _ & Hs);
      [reflexivity|].
    exists batch', e'. unfold run. rewrite foldl_app. by split_and!.
Defined.

(** C1 as the specification states it fails: the value at the entry's index
    is a promise, not an Error, and the entry's promise is not fulfilled with
    it but rejected with the reason the promise rejects with. *)
Lemma C1_counterexample :
  heap (run no_thresholds (followed ++ [Adopt 0 0])) !! 0%nat =
    Some adopted_batch
  ∧ outcome_of (progress adopted_batch) =
      Some (Fulfils (VArray [late_rejection]))
  ∧ get_index (VArray [late_rejection]) 0 = inl late_rejection
  ∧ instanceof_Error late_rejection = false
  ∧ entries adopted_batch !! 0%nat =
      Some {| item := 1; slot := Rejected (VStr "late");
              follows := Some late_rejection |}
  ∧ Rejected (VStr "late") ≠ Fulfilled late_rejection.
Proof. split_and!; [vm_compute; reflexivity..|discriminate]. Qed.

(** C2 as the specification states it fails: the property read throws an
    Error, and the entry is rejected with that Error instead of being
    fulfilled with [undefined]. *)
Lemma C2_counterexample :
  heap (run no_thresholds [Process 7; Release; Settle 0 (Returns trapped)])
    !! 0%nat = Some trapped_batch
  ∧ outcome_of (progress trapped_batch) = Some (Fulfils trapped)
  ∧ get_index trapped 0 = inr (VError "trap")
  ∧ entries trapped_batch !! 0%nat =
      Some {| item := 7; slot := Rejected (VError "trap"); follows := None |}
  ∧ Rejected (VError "trap") ≠ Fulfilled VUndefined.
Proof. split_and!; [vm_compute; reflexivity..|discriminate]. Qed.

Lemma C2_lookup_failure_witness :
  (heap (run no_thresholds short_result) !! 0%nat = Some short_result_batch
   ∧ entries short_result_batch !! 2%nat =
       Some {| item := 3; slot := Fulfilled VUndefined; follows := None |}
   ∧ (length [VNum 0; VError "nope"] ≤ 2)%nat
   ∧ slot {| item := 3 : Z; slot := Fulfilled VUndefined; follows := None |} =
       Fulfilled VUndefined)
  ∧ (heap (run no_thresholds [Process 7; Release; Settle 0 (Returns trapped)])
       !! 0%nat = Some trapped_batch
     ∧ get_index trapped 0 = inr (VError "trap")
     ∧ slot {| item := 7 : Z; slot := Rejected (VError "trap"); follows := None |} =
         Rejected (VError "trap")).
Proof.
  split.
  - split_and!; [vm_compute; reflexivity|vm_compute; reflexivity|simpl; lia|].
    apply (C2_lookup_failure no_thresholds short_result 0 short_result_batch
             (VArray [VNum 0; VError "nope"]) 2
             {| item := 3; slot := Fulfilled VUndefined; follows := None |});
      [vm_compute; reflexivity..|].
    right. right. left. eexists. split; [reflexivity|simpl; lia].
  - split_and!; [vm_compute; reflexivity..|].
    destruct (C2_lookup_failure no_thresholds
                [Process 7; Release; Settle 0 (Returns trapped)] 0
                trapped_batch trapped 0
                {| item := 7; slot := Rejected (VError "trap"); follows := None |})
      as [_ Hthrown]; [vm_compute; reflexivity..|].
    destruct (Hthrown (VError "trap")) as [Hplain _];
      [discriminate|discriminate|reflexivity|].
    by apply Hplain.
Defined.


(** ** Submission, timers and the life of a batch *)

Section Lifecycle.

Context {Item : Type}.
Variable options : ThresholdOptions Item.

#[local] Abbreviation Entry := (Entry Item).
#[local] Abbreviation Batch := (Batch Item).
#[local] Abbreviation State := (State Item).

(** C4: with a size threshold whose [strict] is [true] or left out, an item
    whose computed size exceeds [size.max] makes [process] throw; no promise is
    returned and the state (the registry, the open batch, its entries and its
    accumulated size) is the one before the call. *)
Theorem C4_oversize_rejected (raw : RawOptions Item) (rs : RawSize Item)
    (validated : ThresholdOptions Item) (s : State) it :
  validateOptions (Some raw) = inr validated →
  raw_size raw = Some rs →
  raw_strict rs = None ∨ raw_strict rs = Some true →
  raw_max rs < raw_calculate rs it →
  process validated it s =
    (s, inl (size_error (raw_calculate rs it) (raw_max rs))).
Proof.
  intros Hv Hs Hstrict Hlarge. unfold validateOptions in Hv.
  destruct (below 1 (raw_count raw)); [done|].
  destruct (below 0 (raw_delay raw)); [done|].
  injection Hv as <-. unfold process, too_large. rewrite Hs. simpl.
  assert (default true (raw_strict rs) = true) as -> by by destruct Hstrict as [->| ->].
  by rewrite (proj2 (Z.ltb_lt _ _) Hlarge).
Qed.

Lemma check_thresholds_all (s : State) :
  all (check_thresholds options s) = all s.
Proof.
  unfold check_thresholds. destruct (from_option _ _ _); [|done].
  unfold release. destruct (current s) as [c|]; [|done].
  by destruct (heap s !! c).
Qed.

Lemma process_registered history it b i :
  (process options it (run options history)).2 = inr (b, i) →
  b ∈ all (process options it (run options history)).1.
Proof.
  pose proof (run_wf options history) as Hwf. revert Hwf.
  generalize (run options history). intros s Hwf. unfold process.
  destruct (too_large _ _); [done|].
  generalize (from_option (λ o, calculate o it) 0 (size_options options)).
  intros sz. pose proof (make_room_wf options s sz Hwf) as Hwf1.
  destruct (current (ensure_open options (make_room options sz s)))
    as [c|] eqn:Hc; simpl; [|done].
  intros [= <- _]. rewrite check_thresholds_all.
  pose proof (enqueue_wf options _ it sz c Hwf1 Hc) as Hwf3.
  destruct (current_accumulating _ c Hwf3 Hc) as (batch & Hb & Hacc).
  apply (wf_all _ Hwf3 c batch Hb). by rewrite Hacc.
Qed.

Lemma process_all (s : State) it : all s ⊆ all (process options it s).1.
Proof.
  unfold process. destruct (too_large _ _); [done|].
  generalize (from_option (λ o, calculate o it) 0 (size_options options)).
  intros sz.
  assert (all s ⊆ all (ensure_open options (make_room options sz s))) as H.
  { unfold ensure_open, make_room.
    destruct (overflows _ _ _), (current _); simpl; rewrite ?release_all;
      set_solver. }
  destruct (current (ensure_open options (make_room options sz s))) as [c|];
    simpl; [|done].
  by rewrite check_thresholds_all.
Qed.

(** Only [#all.delete(next)], the reaction on the promise [batch.resolve]
    fulfils, takes a batch out of the registry. *)
Lemma registry_leaves (s : State) b (batch : Batch) e :
  wf s → heap s !! b = Some batch →
  b ∈ all s → b ∉ all (step options s e) →
  e = Delete b ∧ fired batch = 1%nat ∧ ∃ o, progress batch = Signalled o.
Proof.
  intros Hwf Hb Hin Hout.
  destruct e as [it| | |t|b' r|b'|b'|b'|f|b' index]; simpl in Hout.
  - destruct Hout. by apply process_all.
  - by rewrite release_all in Hout.
  - by rewrite release_all in Hout.
  - destruct (timers s !! t); [|done]. unfold on_timeout in Hout.
    case_decide; [by rewrite release_all in Hout|done].
  - destruct (heap s !! b') as [x|]; [|done]. by destruct (progress x).
  - destruct (heap s !! b') as [x|]; [|done]. by destruct (progress x).
  - destruct (heap s !! b') as [x|]; [|done]. by destruct (progress x).
  - destruct (heap s !! b') as [x|] eqn:Hx; [|done].
    destruct (progress x) as [| |o|o|o|o] eqn:Hp; try done.
    simpl in Hout.
    destruct (decide (b' = b)) as [->|Hne]; [|set_solver].
    rewrite Hb in Hx. injection Hx as <-.
    destruct (wf_batch s Hwf b batch Hb) as [_ Hok]. rewrite Hp in Hok.
    split; [done|]. split; [tauto|by exists o].
  - done.
  - destruct (heap s !! b') as [x|]; [|done]. by destruct (progress x).
Qed.

(** C8 (as amended): [batch.resolve] is called at most once for a batch, by
    the [finally] reaction and whatever the outcome of the call, and only
    when the promise of every entry is resolved: settled, or following the
    thenable it was resolved with, in which case it may still be pending;
    after a call that failed, every entry is rejected with the error.
    The batch that receives a submitted item is in the registry when
    [process] returns; a batch whose signal has fired is in the registry
    until the reaction on that signal runs, which takes it out; nothing else
    takes a batch out, so a batch that is no longer in the registry has had
    its signal fired. *)
Theorem C8_completion_signal history b (batch : Batch) :
  let s := run options history in
  heap s !! b = Some batch →
  (fired batch ≤ 1)%nat ∧
  (fired batch = 1%nat → ∀ e, e ∈ entries batch →
     slot e ≠ Pending ∨ ∃ v, follows e = Some v ∧ is_thenable v = true) ∧
  (fired batch = 1%nat → ∀ error,
     outcome_of (progress batch) = Some (Rejects error) →
     ∀ e, e ∈ entries batch → slot e = Rejected error) ∧
  (b ∉ all s → fired batch = 1%nat) ∧
  (∀ o, progress batch = Caught o →
     ∃ batch', heap (step options s (Finally b)) !! b = Some batch' ∧
       fired batch' = 1%nat) ∧
  (∀ o, progress batch = Signalled o →
     b ∈ all s ∧ b ∉ all (step options s (Delete b))) ∧
  (∀ e, b ∈ all s → b ∉ all (step options s e) →
     e = Delete b ∧ fired batch = 1%nat) ∧
  (∀ it b' i, (process options it s).2 = inr (b', i) →
     b' ∈ all (process options it s).1).
Proof.
  intros s Hb.
  pose proof (run_wf options history) as Hwf.
  pose proof (wf_batch _ Hwf b batch Hb) as [_ Hok].
  pose proof (wf_all _ Hwf b batch Hb) as Hall.
  assert (Hlt : (b < length (heap s))%nat) by by eapply lookup_lt_Some.
  split_and!.
  - destruct (progress batch) as [| |[]|o|o|o]; destruct Hok as [-> _]; lia.
  - intros Hf e He.
    destruct (progress batch) as [| |[]|o|o|o]; destruct Hok as [Hz Hs];
      try (rewrite Hz in Hf; discriminate); by eapply settled_as_resolved.
  - intros Hf error Ho e He.
    destruct (progress batch) as [| |[]|o|o|o]; destruct Hok as [Hz Hs];
      try (rewrite Hz in Hf; discriminate); simplify_eq/=;
      by destruct (Hs e He).
  - intros Hnot.
    destruct (progress batch) as [| |[]|o|o|o]; destruct Hok as [Hz Hs];
      try done; by destruct Hnot; apply Hall.
  - intros o Hp. simpl. fold s. rewrite Hb, Hp. simpl.
    rewrite Hp in Hok. destruct Hok as [Hz _].
    eexists. rewrite list_lookup_insert_eq by done. split; [done|].
    simpl. by rewrite Hz.
  - intros o Hp. split.
    + apply Hall. by rewrite Hp.
    + simpl. fold s. rewrite Hb, Hp. simpl. set_solver.
  - intros e Hin Hout.
    destruct (registry_leaves s b batch e Hwf Hb Hin Hout) as (? & ? & _).
    done.
  - intros it b' i. apply process_registered.
Qed.

Lemma on_timeout_one_shot (s : State) t :
  timers (step options s (Timeout t)) !! t = None.
Proof.
  simpl. destruct (timers s !! t) as [tm|] eqn:Ht; [|done].
  unfold on_timeout. case_decide; simpl; [|apply lookup_delete_eq].
  unfold release. simpl. destruct (current s) as [c|]; [|apply lookup_delete_eq].
  destruct (heap s !! c) as [batch|]; simpl; [|apply lookup_delete_eq].
  unfold clearTimeout. destruct (timeout batch) as [t'|]; [|apply lookup_delete_eq].
  rewrite lookup_delete_None. right. apply lookup_delete_eq.
Qed.

Lemma timeout_releases_own_batch history t tm :
  timers (run options history) !! t = Some tm →
  ∃ batch : Batch,
    heap (run options history) !! timer_batch tm = Some batch ∧
    current (step options (run options history) (Timeout t)) = None ∧
    calls (step options (run options history) (Timeout t)) =
      calls (run options history) ++
        [(timer_batch tm, item <$> entries batch)].
Proof.
  intros Ht. pose proof (run_wf options history) as Hwf.
  destruct (wf_timers _ Hwf t tm Ht) as (Hc & batch & Hb & _).
  exists batch. split; [done|]. simpl. rewrite Ht.
  unfold on_timeout. simpl. rewrite decide_True by done.
  unfold release. simpl. by rewrite Hc, Hb.
Qed.

(** C9: with a delay configured, opening a batch sets a timer whose callback
    holds that batch.  The callback releases when, and only when, [#current]
    is that very batch; in any other state, also one in which another batch
    has been opened, it changes nothing.  A timer fires at most once, timers
    still pending belong to the open batch, so that a timer that fires hands
    over exactly its own batch, and over any history no batch is handed to
    the processing function twice. *)
Theorem C9_stale_timer :
  (∀ (s : State) d, delay options = Some d →
     current (open options s) = Some (length (heap s)) ∧
     timers (open options s) !! next_timer s =
       Some {| timer_batch := length (heap s); timer_delay := d |}) ∧
  (∀ (s : State) next, current s = Some next → on_timeout next s = release s) ∧
  (∀ (s : State) next, current s ≠ Some next → on_timeout next s = s) ∧
  (∀ (s : State) t, timers (step options s (Timeout t)) !! t = None) ∧
  (∀ history t tm, timers (run options history) !! t = Some tm →
     current (run options history) = Some (timer_batch tm) ∧
     ∃ batch : Batch,
       heap (run options history) !! timer_batch tm = Some batch ∧
       current (step options (run options history) (Timeout t)) = None ∧
       calls (step options (run options history) (Timeout t)) =
         calls (run options history) ++
           [(timer_batch tm, item <$> entries batch)]) ∧
  (∀ history, NoDup (calls (run options history)).*1).
Proof.
  split_and!.
  - intros s d Hd. simpl. rewrite Hd. split; [done|]. apply lookup_insert_eq.
  - intros s next H. unfold on_timeout. by case_decide.
  - intros s next H. unfold on_timeout. by case_decide.
  - apply on_timeout_one_shot.
  - intros history t tm H. split.
    + by destruct (wf_timers _ (run_wf options history) t tm H).
    + by apply timeout_releases_own_batch.
  - intros history. apply wf_calls_nodup, run_wf.
Qed.

(** C10: the processing function is never called with an empty sequence of
    items: every call recorded carries at least one item, every batch holds
    at least one entry whenever control is back with the caller, and
    [release] without an open batch does nothing. *)
Theorem C10_never_empty history :
  (∀ b items, (b, items) ∈ calls (run options history) → items ≠ []) ∧
  (∀ b (batch : Batch),
     heap (run options history) !! b = Some batch → entries batch ≠ []) ∧
  (∀ s : State, current s = None → release s = s).
Proof.
  pose proof (run_wf options history) as Hwf. split_and!.
  - intros b items H.
    destruct (wf_calls_args _ Hwf b items H) as (batch & Hb & ->).
    destruct (wf_batch _ Hwf b batch Hb) as [Hne _].
    intros Hnil%fmap_nil_inv. done.
  - intros b batch Hb. by destruct (wf_batch _ Hwf b batch Hb).
  - intros s Hc. unfold release. by rewrite Hc.
Qed.

End Lifecycle.

(** ** Flushing *)

Section Flushing.

Context {Item : Type}.
Variable options : ThresholdOptions Item.

#[local] Abbreviation Batch := (Batch Item).
#[local] Abbreviation State := (State Item).

Lemma awaited_stable (s : State) e f fl :
  flushes s !! f = Some fl →
  ∃ fl', flushes (step options s e) !! f = Some fl' ∧ awaited fl' = awaited fl.
Proof.
  intros Hf. destruct e as [it| | |t|b r|b|b|b|f'|b index]; simpl.
  - rewrite process_flushes. eauto.
  - rewrite release_flushes. eauto.
  - rewrite release_flushes. simpl. exists fl. split; [|done].
    by apply lookup_app_l_Some.
  - destruct (timers s !! t); [|eauto]. unfold on_timeout.
    case_decide; [rewrite release_flushes|]; simpl; eauto.
  - destruct (heap s !! b) as [batch|]; [|eauto].
    destruct (progress batch); eauto.
  - destruct (heap s !! b) as [batch|]; [|eauto].
    destruct (progress batch); eauto.
  - destruct (heap s !! b) as [batch|]; [|eauto].
    destruct (progress batch); eauto.
  - destruct (heap s !! b) as [batch|]; [|eauto].
    destruct (progress batch); eauto.
    simpl. rewrite list_lookup_fmap, Hf. simpl. eauto.
  - destruct (decide (f' = f)) as [->|Hne].
    + rewrite list_lookup_alter_eq, Hf. simpl. eexists. split; [done|].
      unfold on_all. by case_decide.
    + rewrite list_lookup_alter_ne by done. eauto.
  - destruct (heap s !! b) as [batch|]; [|eauto].
    destruct (progress batch); eauto.
Qed.

Lemma flush_sound history f fl b :
  flushes (run options history) !! f = Some fl →
  resumed fl = true → b ∈ awaited fl →
  ∃ batch : Batch, heap (run options history) !! b = Some batch ∧
    is_removed (progress batch) = true ∧ fired batch = 1%nat.
Proof.
  intros Hf Hr Hb. pose proof (run_wf options history) as Hwf.
  destruct (wf_flushes _ Hwf f fl Hf) as (Hw & Hdom & Hres).
  destruct (Hdom b Hb) as [batch Hbatch]. exists batch. split; [done|].
  assert (b ∉ all (run options history)) as Hnot.
  { specialize (Hres Hr). rewrite Hres in Hw. set_solver. }
  pose proof (wf_all _ Hwf b batch Hbatch) as Hall.
  destruct (wf_batch _ Hwf b batch Hbatch) as [_ Hok].
  destruct (progress batch) as [| |[]|o|o|o]; simpl in *;
    try (destruct Hnot; by apply Hall).
  by destruct Hok.
Qed.

Lemma flush_complete history f fl :
  flushes (run options history) !! f = Some fl →
  (∀ b, b ∈ awaited fl → b ∉ all (run options history)) →
  ∃ fl', flushes (step options (run options history) (Resume f)) !! f =
           Some fl' ∧ resumed fl' = true.
Proof.
  intros Hf Hdone. pose proof (run_wf options history) as Hwf.
  destruct (wf_flushes _ Hwf f fl Hf) as (Hw & _ & _).
  assert (waiting fl = ∅) as Hempty by (rewrite Hw; set_solver).
  simpl. rewrite list_lookup_alter_eq, Hf. simpl. eexists. split; [done|].
  unfold on_all. by rewrite decide_True.
Qed.

Lemma batch_completes (s : State) b (batch : Batch) r :
  heap s !! b = Some batch → progress batch = InFlight →
  (b ∉ all (foldl (step options) s
              [Settle b r; Catch b; Finally b; Delete b])) ∧
  (∃ batch',
     heap (foldl (step options) s
             [Settle b r; Catch b; Finally b; Delete b]) !! b = Some batch' ∧
     progress batch' = Removed (async_fn r)).
Proof.
  intros Hb Hp.
  assert (Hlt : (b < length (heap s))%nat) by by eapply lookup_lt_Some.
  simpl. rewrite Hb, Hp. simpl.
  rewrite list_lookup_insert_eq by done. simpl.
  rewrite list_lookup_insert_eq by by rewrite length_insert. simpl.
  rewrite list_lookup_insert_eq by by rewrite !length_insert. simpl.
  split; [set_solver|]. eexists.
  by rewrite list_lookup_insert_eq by by rewrite !length_insert.
Qed.

Lemma release_heap_length (s : State) :
  length (heap (release s)) = length (heap s).
Proof.
  unfold release. destruct (current s) as [c|]; [|done].
  destruct (heap s !! c); [|done]. simpl. apply length_insert.
Qed.

(** An item submitted right after [flush] opens a batch the snapshot cannot
    hold. *)
Lemma submitted_after_flush history it b i :
  (process options it (flush (run options history)).1).2 = inr (b, i) →
  b ∉ all (run options history).
Proof.
  pose proof (run_wf options history) as Hwf. revert Hwf.
  generalize (run options history). intros s Hwf.
  pose proof (flush_wf s Hwf) as Hwf1.
  destruct (flush_snapshot s) as (_ & Hc & _ & Hheap & _).
  destruct (too_large options
    (from_option (λ o, calculate o it) 0 (size_options options))) eqn:Hlarge.
  { unfold process. cbv zeta. by rewrite Hlarge. }
  destruct (process_accepted options _ it Hwf1 Hlarge)
    as (b' & es & tot & t & Hres & Hnew & _).
  rewrite Hres. intros [= <- <-].
  assert (∀ sz, make_room options sz (flush s).1 = (flush s).1) as Hroom.
  { intros sz. unfold make_room, overflows, current_batch. rewrite Hc.
    by destruct (size_options options). }
  rewrite Hroom in Hnew. destruct (Hnew Hc) as (_ & _ & ->).
  rewrite Hheap, release_heap_length.
  intros [x Hx%lookup_lt_Some]%(wf_all_dom s Hwf). lia.
Qed.

(** C7: [flush] hands [Promise.all] the promises of exactly the batches in
    the registry when it is called, and then releases the open batch.  Its
    own promise is resumed only when every batch of that snapshot has fired
    its signal and left the registry, and is resumed once they all have;
    the snapshot never changes afterwards, holds only batches that existed at
    the call, and so not the batch of an item submitted next.  Whatever the
    call of the processing function does, a dispatched batch reaches that
    point. *)
Theorem C7_flush_snapshot history :
  let s := run options history in
  (flushes (flush s).1 !! (flush s).2 =
     Some {| awaited := all s; waiting := all s; resumed := false |}
   ∧ current (flush s).1 = None
   ∧ heap (flush s).1 = heap (release s)
   ∧ calls (flush s).1 = calls (release s)) ∧
  (∀ b, b ∈ all s → is_Some (heap s !! b)) ∧
  (∀ it b i,
     (process options it (flush s).1).2 = inr (b, i) → b ∉ all s) ∧
  (∀ e f fl, flushes s !! f = Some fl →
     ∃ fl', flushes (step options s e) !! f = Some fl' ∧
       awaited fl' = awaited fl) ∧
  (∀ f fl b, flushes s !! f = Some fl → resumed fl = true → b ∈ awaited fl →
     ∃ batch : Batch, heap s !! b = Some batch ∧
       is_removed (progress batch) = true ∧ fired batch = 1%nat) ∧
  (∀ f fl, flushes s !! f = Some fl →
     (∀ b, b ∈ awaited fl → b ∉ all s) →
     ∃ fl', flushes (step options s (Resume f)) !! f = Some fl' ∧
       resumed fl' = true) ∧
  (∀ b (batch : Batch) r, heap s !! b = Some batch →
     progress batch = InFlight →
     b ∉ all (foldl (step options) s
                [Settle b r; Catch b; Finally b; Delete b])).
Proof.
  intros s. split; [|split_and!].
  - destruct (flush_snapshot s) as (? & ? & ? & ? & ?). by split_and!.
  - apply wf_all_dom, run_wf.
  - intros it b i. apply submitted_after_flush.
  - intros e f fl. apply awaited_stable.
  - intros f fl b. apply flush_sound.
  - intros f fl. apply flush_complete.
  - intros b batch r Hb Hp.
    exact (proj1 (batch_completes s b batch r Hb Hp)).
Qed.

End Flushing.

(** ** Thresholds *)

Section Thresholds.

Context {Item : Type}.
Variable options : ThresholdOptions Item.

#[local] Abbreviation Batch := (Batch Item).
#[local] Abbreviation State := (State Item).

(** When [process] returns a promise, the batch that took the item has been
    handed to the processing function exactly when a threshold is reached. *)
Lemma process_releases_iff history it b i :
  let s' := (process options it (run options history)).1 in
  (process options it (run options history)).2 = inr (b, i) →
  ∃ batch : Batch,
    heap s' !! b = Some batch ∧
    entries batch !! i = Some {| item := it; slot := Pending; follows := None |} ∧
    length (entries batch) = S i ∧
    (b ∈ (calls s').*1 ↔
       (∃ m, count options = Some m ∧
          m ≤ Z.of_nat (length (entries batch))) ∨
       (∃ o, size_options options = Some o ∧ size_max o ≤ total batch)) ∧
    (b ∈ (calls s').*1 →
       current s' = None ∧
       last (calls s') = Some (b, item <$> entries batch)) ∧
    (b ∉ (calls s').*1 → current s' = Some b).
Proof.
  intros s'. pose proof (run_wf options history) as Hwf.
  pose proof (process_wf options _ it Hwf) as Hwf'. fold s' in Hwf'.
  subst s'. revert Hwf Hwf'. generalize (run options history). intros s Hwf Hwf'.
  destruct (too_large options
    (from_option (λ o, calculate o it) 0 (size_options options))) eqn:Hlarge.
  { unfold process. cbv zeta. by rewrite Hlarge. }
  destruct (process_accepted options s it Hwf Hlarge)
    as (b' & es & tot & t & Hres & _ & _ & Hcase).
  rewrite Hres. intros [= <- <-]. cbv zeta in Hcase.
  set (batch := {| entries := es ++ [{| item := it; slot := Pending; follows := None |}];
                   total := tot + _; timeout := t; fired := 0;
                   progress := Accumulating |}) in *.
  pose proof (threshold_reached_iff options batch) as Hiff.
  destruct (threshold_reached options batch).
  - destruct Hcase as (Hc & Hcalls & Hb).
    exists (set_progress InFlight batch). rewrite Hcalls, fmap_app. simpl.
    split_and!; try done.
    + by rewrite lookup_app_r, Nat.sub_diag by lia.
    + rewrite length_app. simpl. lia.
    + split; [intros _; by apply Hiff|].
      intros _. apply elem_of_app. right. by apply list_elem_of_singleton.
    + intros _. split; [done|]. apply last_snoc.
    + intros Hnot. destruct Hnot. apply elem_of_app. right.
      by apply list_elem_of_singleton.
  - destruct Hcase as (Hc & Hcalls & Hb).
    assert (b' ∉ (calls (process options it s).1).*1) as Hnot.
    { intros Hin. by apply (wf_calls _ Hwf' b' batch Hb) in Hin. }
    exists batch. split_and!; try done.
    + simpl. by rewrite lookup_app_r, Nat.sub_diag by lia.
    + simpl. rewrite length_app. simpl. lia.
    + split; [done|]. intros H. apply Hiff in H. discriminate.
Qed.

Lemma release_timers_empty (s : State) :
  timers s = ∅ → timers (release s) = ∅.
Proof.
  intros He. unfold release. destruct (current s) as [c|]; [|done].
  destruct (heap s !! c) as [batch|]; [|done]. simpl.
  unfold clearTimeout. destruct (timeout batch); [|done].
  rewrite He. apply delete_empty.
Qed.

Lemma process_timers_empty (s : State) it :
  delay options = None → timers s = ∅ → timers (process options it s).1 = ∅.
Proof.
  intros Hd He. unfold process. destruct (too_large _ _); [done|].
  generalize (from_option (λ o, calculate o it) 0 (size_options options)).
  intros sz.
  assert (timers (ensure_open options (make_room options sz s)) = ∅) as H2.
  { unfold ensure_open, make_room, open.
    destruct (overflows _ _ _), (current _); simpl; rewrite ?Hd;
      by rewrite ?release_timers_empty. }
  destruct (current (ensure_open options (make_room options sz s))) as [c|];
    simpl; [|done].
  unfold check_thresholds. destruct (from_option _ _ _); [|done].
  by apply release_timers_empty.
Qed.

(** Reactions work on batches handed over already and leave the open batch,
    the timers and the record of calls alone. *)
Lemma reaction_frame (s : State) e :
  wf s →
  match e with
  | Settle _ _ | Catch _ | Finally _ | Delete _ | Resume _ | Adopt _ _ => True
  | _ => False
  end →
  timers (step options s e) = timers s ∧
  calls (step options s e) = calls s ∧
  current_batch (step options s e) = current_batch s.
Proof.
  intros Hwf He.
  assert (∀ b (batch x : Batch),
    heap s !! b = Some batch → progress batch ≠ Accumulating →
    current s ≫= (λ c, <[b := x]> (heap s) !! c) = current_batch s) as Hframe.
  { intros b batch x Hb Hp. unfold current_batch.
    destruct (current s) as [c|] eqn:Hc; [|done]. simpl.
    rewrite list_lookup_insert_ne; [done|]. intros ->.
    by apply Hp, (wf_current s Hwf c batch Hb). }
  destruct e as [| | | |b r|b|b|b|f|b index]; try done; simpl;
    try (destruct (heap s !! b) as [batch|] eqn:Hb; [|done];
         destruct (progress batch) eqn:Hp; try done;
         split_and!; try done; apply (Hframe b batch); by rewrite ?Hp).
Qed.

(** With [count.max = k] as the only threshold, an event adds at most one
    call of the processing function; the call has at most [k] items, and
    exactly [k] unless it comes from [release] or [flush]. *)
Lemma count_only_step (s : State) e k :
  count options = Some k → delay options = None →
  size_options options = None → 1 ≤ k →
  wf s →
  timers s = ∅ →
  (∀ batch, current_batch s = Some batch →
     Z.of_nat (length (entries batch)) < k) →
  timers (step options s e) = ∅ ∧
  (∀ batch, current_batch (step options s e) = Some batch →
     Z.of_nat (length (entries batch)) < k) ∧
  (calls (step options s e) = calls s ∨
   ∃ c, calls (step options s e) = calls s ++ [c] ∧
     Z.of_nat (length c.2) ≤ k ∧
     (automatic e → Z.of_nat (length c.2) = k)).
Proof.
  intros Hcount Hdelay Hsize Hk Hwf Htimers Hopen.
  assert (timers (release s) = ∅ ∧
    (∀ batch, current_batch (release s) = Some batch →
       Z.of_nat (length (entries batch)) < k) ∧
    (calls (release s) = calls s ∨
     ∃ c, calls (release s) = calls s ++ [c] ∧
       Z.of_nat (length c.2) ≤ k ∧ (False → Z.of_nat (length c.2) = k)))
    as Hrelease.
  { split; [by apply release_timers_empty|]. split.
    - intros batch. unfold current_batch. by rewrite release_current.
    - unfold release. destruct (current s) as [c|] eqn:Hc; [|by left].
      destruct (heap s !! c) as [batch|] eqn:Hb; [|by left].
      right. eexists. split; [done|]. simpl. rewrite length_fmap.
      split; [|done]. apply Z.lt_le_incl, Hopen.
      unfold current_batch. by rewrite Hc. }
  destruct e as [it| | |t|b r|b|b|b|f|b index].
  - assert (too_large options
      (from_option (λ o, calculate o it) 0 (size_options options)) = false)
      as Hlarge by (unfold too_large; by rewrite Hsize).
    split; [by apply process_timers_empty|].
    destruct (process_accepted options s it Hwf Hlarge)
      as (b & es & tot & t & _ & Hnew & Hold & Hcase).
    assert (make_room options
      (from_option (λ o, calculate o it) 0 (size_options options)) s = s)
      as Hroom by (unfold make_room, overflows; by rewrite Hsize).
    rewrite Hroom in Hnew, Hold, Hcase. cbv zeta in Hcase.
    assert (Z.of_nat (length es) < k) as Hes.
    { destruct (current s) as [c|] eqn:Hc.
      - destruct (wf_current_dom s Hwf c Hc) as [batch Hb].
        assert (current_batch s = Some batch) as Hcb
          by (unfold current_batch; by rewrite Hc).
        destruct (Hold batch Hcb) as [-> _]. by apply Hopen.
      - destruct (Hnew eq_refl) as (-> & _ & _). simpl. lia. }
    simpl. revert Hcase. unfold threshold_reached at 1.
    rewrite Hcount, Hsize, orb_false_r. simpl. rewrite length_app. simpl.
    destruct (k <=? _) eqn:Hreached.
    + apply Z.leb_le in Hreached. intros (Hc & -> & _).
      split.
      * intros batch. unfold current_batch. by rewrite Hc.
      * right. eexists. split; [done|]. simpl.
        rewrite length_fmap, length_app. simpl. lia.
    + apply Z.leb_gt in Hreached. intros (Hc & -> & Hb).
      split; [|by left]. intros batch. unfold current_batch. rewrite Hc. simpl.
      rewrite Hb. intros [= <-]. simpl. rewrite length_app. simpl. lia.
  - exact Hrelease.
  - change (step options s Flush) with (flush s).1.
    destruct (flush_snapshot s) as (_ & Hc & _ & _ & ->).
    destruct Hrelease as (_ & _ & Hcalls).
    split_and!; [|intros batch; unfold current_batch; by rewrite Hc|done].
    by apply release_timers_empty.
  - simpl. rewrite Htimers, lookup_empty. split_and!; [done..|by left].
  - destruct (reaction_frame s (Settle b r) Hwf I) as (-> & -> & ->).
    split_and!; [done..|by left].
  - destruct (reaction_frame s (Catch b) Hwf I) as (-> & -> & ->).
    split_and!; [done..|by left].
  - destruct (reaction_frame s (Finally b) Hwf I) as (-> & -> & ->).
    split_and!; [done..|by left].
  - destruct (reaction_frame s (Delete b) Hwf I) as (-> & -> & ->).
    split_and!; [done..|by left].
  - destruct (reaction_frame s (Resume f) Hwf I) as (-> & -> & ->).
    split_and!; [done..|by left].
  - destruct (reaction_frame s (Adopt b index) Hwf I) as (-> & -> & ->).
    split_and!; [done..|by left].
Qed.

Lemma count_only_run history k :
  count options = Some k → delay options = None →
  size_options options = None → 1 ≤ k →
  timers (run options history) = ∅ ∧
  (∀ batch, current_batch (run options history) = Some batch →
     Z.of_nat (length (entries batch)) < k).
Proof.
  intros Hcount Hdelay Hsize Hk. unfold run.
  induction history as [|e history IH] using rev_ind; [done|].
  destruct IH as [? ?]. rewrite foldl_app. simpl.
  destruct (count_only_step (foldl (step options) init history) e k)
    as (? & ? & _); try done.
  apply (run_wf options history).
Qed.

Lemma count_only_calls history k :
  count options = Some k → delay options = None →
  size_options options = None → 1 ≤ k →
  Forall automatic history →
  ∀ c, c ∈ calls (run options history) → Z.of_nat (length c.2) = k.
Proof.
  intros Hcount Hdelay Hsize Hk. unfold run.
  induction history as [|e history IH] using rev_ind; intros Hauto c.
  { intros Hc. by apply elem_of_nil in Hc. }
  apply Forall_app in Hauto as [Hauto He]. apply Forall_inv in He.
  rewrite foldl_app. simpl.
  destruct (count_only_run history k) as [Ht Ho]; try done.
  destruct (count_only_step (run options history) e k)
    as (_ & _ & [Hsame|(c' & Hmore & _ & Hk')]); try done.
  - apply (run_wf options history).
  - unfold run in Hsame. rewrite Hsame. by apply IH.
  - unfold run in Hmore. rewrite Hmore.
    intros [Hin| ->%list_elem_of_singleton]%elem_of_app; [by apply IH|].
    by apply Hk'.
Qed.

(** C5 (as amended): when [process] returns a promise, the batch that took
    the item has been handed to the processing function exactly when its
    number of entries has reached a configured [count.max] or its accumulated
    size a configured [size.max]; it then is the last batch handed over, the
    new item included, and no batch is open, and otherwise it stays the open
    batch.  With [count.max = k] as the only threshold, whatever happened
    before, an event hands over at most one batch, of at most [k] items, and
    of exactly [k] unless the event is a call of [release] or [flush]; hence
    when no such call was made, every batch handed over has exactly [k]
    items, and after one more event of any kind all but possibly the last
    have. *)
Theorem C5_thresholds history :
  let s := run options history in
  (∀ it b i,
     (process options it s).2 = inr (b, i) →
     ∃ batch : Batch,
       heap (process options it s).1 !! b = Some batch ∧
       entries batch !! i = Some {| item := it; slot := Pending; follows := None |} ∧
       length (entries batch) = S i ∧
       (b ∈ (calls (process options it s).1).*1 ↔
          (∃ m, count options = Some m ∧
             m ≤ Z.of_nat (length (entries batch))) ∨
          (∃ o, size_options options = Some o ∧ size_max o ≤ total batch)) ∧
       (b ∈ (calls (process options it s).1).*1 →
          current (process options it s).1 = None ∧
          last (calls (process options it s).1) =
            Some (b, item <$> entries batch)) ∧
       (b ∉ (calls (process options it s).1).*1 →
          current (process options it s).1 = Some b)) ∧
  (∀ k,
     validateOptions
       (Some {| raw_count := Some k; raw_delay := None; raw_size := None |}) =
       inr options →
     (∀ e,
        calls (step options s e) = calls s ∨
        ∃ c, calls (step options s e) = calls s ++ [c] ∧
          Z.of_nat (length c.2) ≤ k ∧
          (automatic e → Z.of_nat (length c.2) = k)) ∧
     (Forall automatic history →
      (∀ c, c ∈ calls s → Z.of_nat (length c.2) = k) ∧
      (∀ e j c,
         calls (step options s e) !! j = Some c →
         (S j < length (calls (step options s e)))%nat →
         Z.of_nat (length c.2) = k))).
Proof.
  intros s. split.
  - intros it b i. apply process_releases_iff.
  - intros k Hv. unfold validateOptions in Hv. simpl in Hv.
    destruct (k <? 1) eqn:Hk; [done|]. apply Z.ltb_ge in Hk.
    injection Hv as Hv.
    assert (count options = Some k) as Hcount by by rewrite <- Hv.
    assert (delay options = None) as Hdelay by by rewrite <- Hv.
    assert (size_options options = None) as Hsize by by rewrite <- Hv.
    destruct (count_only_run history k Hcount Hdelay Hsize Hk) as [Ht Ho].
    assert (∀ e,
      calls (step options s e) = calls s ∨
      ∃ c, calls (step options s e) = calls s ++ [c] ∧
        Z.of_nat (length c.2) ≤ k ∧
        (automatic e → Z.of_nat (length c.2) = k)) as Hstep.
    { intros e. apply count_only_step; try done.
      apply (run_wf options history). }
    split; [exact Hstep|]. intros Hauto.
    pose proof (count_only_calls history k Hcount Hdelay Hsize Hk Hauto)
      as Hcalls.
    split; [done|]. intros e j c.
    destruct (Hstep e) as [->|(c' & -> & _)].
    + intros H _. apply Hcalls. by eapply list_elem_of_lookup_2.
    + rewrite length_app. simpl. intros H Hlen.
      rewrite lookup_app_l in H by lia.
      apply Hcalls. by eapply list_elem_of_lookup_2.
Qed.

(** Under a size threshold that is not strict, an item whose own size
    exceeds [size.max] is accepted; provided the accumulated size of the open
    batch, if there is one, is not negative, that batch is released first,
    the item goes into a batch of its own made for it, and that batch is
    handed to the processing function at once, the item alone in it. *)
Theorem oversize_alone history it o :
  let s := run options history in
  size_options options = Some o →
  strict o = false →
  size_max o < calculate o it →
  (∀ batch, current_batch s = Some batch → 0 ≤ total batch) →
  (process options it s).2 = inr (length (heap s), 0%nat) ∧
  current (process options it s).1 = None ∧
  calls (process options it s).1 =
    calls (release s) ++ [(length (heap s), [it])] ∧
  (∀ b batch, current s = Some b → heap s !! b = Some batch →
     calls (release s) = calls s ++ [(b, item <$> entries batch)]).
Proof.
  intros s Hsize Hstrict Hlarge Hpos.
  pose proof (run_wf options history) as Hwf. fold s in Hwf.
  assert (too_large options
    (from_option (λ o, calculate o it) 0 (size_options options)) = false)
    as Htoo.
  { unfold too_large. rewrite Hsize, Hstrict. apply andb_false_r. }
  assert (make_room options
    (from_option (λ o, calculate o it) 0 (size_options options)) s =
    release s) as Hroom.
  { unfold make_room, overflows. rewrite Hsize. simpl.
    destruct (current_batch s) as [batch|] eqn:Hcb.
    - specialize (Hpos batch eq_refl).
      by rewrite (proj2 (Z.ltb_lt _ _)) by lia.
    - unfold release. unfold current_batch in Hcb.
      destruct (current s) as [c|] eqn:Hc; [|done]. simpl in Hcb.
      destruct (wf_current_dom s Hwf c Hc) as [x Hx]. congruence. }
  destruct (process_accepted options s it Hwf Htoo)
    as (b & es & tot & t & Hres & Hnew & _ & Hcase).
  rewrite Hroom in Hnew, Hcase.
  destruct (Hnew (release_current _)) as (-> & -> & ->).
  pose proof (release_heap_length s) as Hlen.
  rewrite Hlen in *. cbv zeta in Hcase. revert Hcase.
  unfold threshold_reached at 1. rewrite Hsize. simpl.
  rewrite (proj2 (Z.leb_le _ _)) by lia. rewrite orb_true_r.
  intros (Hc & Hcalls & _). split_and!; try done.
  intros b batch Hc' Hb. unfold release. by rewrite Hc', Hb.
Qed.

End Thresholds.

(** ** Concrete runs *)

Example size_error_message :
  size_error 1 0 = VError "item has size 1, greater than 0 allowed".
Proof. vm_compute. reflexivity. Qed.

Lemma C4_oversize_rejected_witness :
  validateOptions (Some strict_by_default) = inr (by_size 0 true)
  ∧ raw_max {| raw_max := 0; raw_calculate := λ n : Z, n;
               raw_strict := None |} < 1
  ∧ process (by_size 0 true) 1 init = (init, inl (size_error 1 0)).
Proof.
  split_and!; [reflexivity|simpl; lia|].
  apply (C4_oversize_rejected strict_by_default
           {| raw_max := 0; raw_calculate := λ n : Z, n; raw_strict := None |}
           (by_size 0 true) init 1);
    [reflexivity|reflexivity|by left|simpl; lia].
Defined.

Lemma C8_completion_signal_witness :
  heap (run no_thresholds signalled_early) !! 0%nat =
    Some signalled_early_batch
  ∧ (fired signalled_early_batch ≤ 1)%nat
  ∧ (∀ e, e ∈ entries signalled_early_batch →
       slot e ≠ Pending ∨ ∃ v, follows e = Some v ∧ is_thenable v = true)
  ∧ 0%nat ∈ all (run no_thresholds signalled_early)
  ∧ 0%nat ∉ all (run no_thresholds (signalled_early ++ [Delete 0%nat])).
Proof.
  assert (heap (run no_thresholds signalled_early) !! 0%nat =
          Some signalled_early_batch) as H by (vm_compute; reflexivity).
  destruct (C8_completion_signal no_thresholds signalled_early 0
              signalled_early_batch H)
    as (Hle & Hresolved & _ & _ & _ & Hdelete & _).
  destruct (Hdelete _ eq_refl) as [Hin Hout].
  split_and!; [exact H|exact Hle|by apply Hresolved|exact Hin|].
  unfold run. rewrite foldl_app. exact Hout.
Defined.

(** C8 as the specification states it fails: the result for the only entry
    is a promise that has not settled; [batch.resolve] has been called, and
    the promise of the entry, which follows that promise, is pending. *)
Lemma C8_counterexample :
  heap (run no_thresholds signalled_early) !! 0%nat =
    Some signalled_early_batch
  ∧ fired signalled_early_batch = 1%nat
  ∧ ∃ e, e ∈ entries signalled_early_batch ∧ slot e = Pending.
Proof.
  split_and!; [vm_compute; reflexivity|reflexivity|].
  eexists. split; [apply list_elem_of_singleton; reflexivity|reflexivity].
Qed.

Lemma C9_stale_timer_witness :
  current (run (by_delay 50) reopened) ≠ Some 0%nat
  ∧ on_timeout 0 (run (by_delay 50) reopened) = run (by_delay 50) reopened.
Proof.
  assert (current (run (by_delay 50) reopened) ≠ Some 0%nat) as H
    by (vm_compute; discriminate).
  split; [exact H|].
  destruct (C9_stale_timer (by_delay 50)) as (_ & _ & Hstale & _).
  exact (Hstale _ 0%nat H).
Defined.

Lemma C10_never_empty_witness :
  (0%nat, [1; 2]) ∈ calls (run no_thresholds [Process 1; Process 2; Release])
  ∧ [1; 2] ≠ @nil Z.
Proof.
  assert ((0%nat, [1; 2]) ∈
          calls (run no_thresholds [Process 1; Process 2; Release])) as H
    by (apply list_elem_of_singleton; vm_compute; reflexivity).
  split; [exact H|].
  destruct (C10_never_empty no_thresholds [Process 1; Process 2; Release])
    as (Hcalls & _).
  exact (Hcalls 0%nat [1; 2] H).
Defined.

Lemma C7_flush_snapshot_witness :
  flushes (run no_thresholds drained) !! 0%nat = Some drained_flush
  ∧ resumed drained_flush = true
  ∧ 1%nat ∈ awaited drained_flush
  ∧ ∃ batch : Batch Z,
      heap (run no_thresholds drained) !! 1%nat = Some batch ∧
      is_removed (progress batch) = true ∧ fired batch = 1%nat.
Proof.
  assert (flushes (run no_thresholds drained) !! 0%nat = Some drained_flush)
    as H by (vm_compute; reflexivity).
  assert (1%nat ∈ awaited drained_flush) as Hin by (simpl; set_solver).
  split_and!; [exact H|reflexivity|exact Hin|].
  destruct (C7_flush_snapshot no_thresholds drained)
    as (_ & _ & _ & _ & Hsound & _).
  exact (Hsound 0%nat drained_flush 1%nat H eq_refl Hin).
Defined.

(** [flush] does not wait for a batch opened after it was called. *)
Example flush_ignores_later_batches :
  (resumed <$> flushes (run no_thresholds late_submission) !! 0%nat) =
    Some true
  ∧ current (run no_thresholds late_submission) = Some 1%nat
  ∧ calls (run no_thresholds late_submission) = [(0%nat, [1])].
Proof. split_and!; vm_compute; reflexivity. Qed.

(** C5 as the specification states it fails once [release] is called by
    hand: with [count.max = 3] the first batch handed over holds one item and
    is not the last. *)
Lemma C5_counterexample :
  validateOptions
    (Some {| raw_count := Some 3; raw_delay := None; raw_size := None |}) =
    inr (by_count 3)
  ∧ calls (run (by_count 3) released_early) =
      [(0%nat, [1]); (1%nat, [2; 3; 4])]
  ∧ Z.of_nat (length [1]) ≠ 3.
Proof. split_and!; [reflexivity|vm_compute; reflexivity|simpl; lia]. Qed.

Lemma C5_thresholds_witness :
  (validateOptions
     (Some {| raw_count := Some 2; raw_delay := None; raw_size := None |}) =
     inr (by_count 2)
   ∧ Forall automatic five_by_two
   ∧ ∀ c, c ∈ calls (run (by_count 2) five_by_two) →
       Z.of_nat (length c.2) = 2)
  ∧ ((process (by_count 2) 6 (run (by_count 2) five_by_two)).2 =
       inr (2%nat, 1%nat)
     ∧ 2%nat ∈
         (calls (process (by_count 2) 6 (run (by_count 2) five_by_two)).1).*1).
Proof.
  assert (Forall automatic five_by_two) as Hauto
    by (repeat constructor).
  destruct (C5_thresholds (by_count 2) five_by_two) as [Hiff Hcount].
  split.
  - split_and!; [reflexivity|exact Hauto|].
    destruct (Hcount 2 eq_refl) as [_ Hall].
    destruct (Hall Hauto) as [Hcalls _]. exact Hcalls.
  - assert ((process (by_count 2) 6 (run (by_count 2) five_by_two)).2 =
            inr (2%nat, 1%nat)) as H by (vm_compute; reflexivity).
    split; [exact H|].
    destruct (Hiff 6 2%nat 1%nat H) as (batch & _ & _ & Hlen & Hreleased & _).
    apply Hreleased. left. exists 2. split; [reflexivity|].
    rewrite Hlen. simpl. lia.
Defined.

Example count_threshold_calls :
  calls (run (by_count 2) five_by_two) = [(0%nat, [1; 2]); (1%nat, [3; 4])].
Proof. vm_compute. reflexivity. Qed.

(** C6: an item larger than [size.max] is to be processed alone at once when
    [strict] is [false], as the documentation of [strict] says too.  The code
    misses the case of an open batch whose accumulated size is negative: the
    open batch holds an item of size -10, the item of size 8 exceeds the limit
    5, and yet it joins the open batch, at index 1, and nothing is handed to
    the processing function. *)
Lemma C6_oversize_joins_negative_batch :
  size_options (by_size 5 false) = Some (lenient 5)
  ∧ strict (lenient 5) = false
  ∧ size_max (lenient 5) < calculate (lenient 5) 8
  ∧ (process (by_size 5 false) 8 (run (by_size 5 false) [Process (-10)])).2 =
      inr (0%nat, 1%nat)
  ∧ current
      (process (by_size 5 false) 8 (run (by_size 5 false) [Process (-10)])).1 =
      Some 0%nat
  ∧ calls
      (process (by_size 5 false) 8 (run (by_size 5 false) [Process (-10)])).1 =
      [].
Proof. split_and!; vm_compute; reflexivity. Qed.

Lemma oversize_alone_example :
  size_options (by_size 2 false) = Some (lenient 2)
  ∧ strict (lenient 2) = false
  ∧ size_max (lenient 2) < calculate (lenient 2) 3
  ∧ current_batch (run (by_size 2 false) [Process 1]) = Some one_open
  ∧ 0 ≤ total one_open
  ∧ calls (process (by_size 2 false) 3 (run (by_size 2 false) [Process 1])).1 =
      calls (release (run (by_size 2 false) [Process 1])) ++ [(1%nat, [3])].
Proof.
  assert (current_batch (run (by_size 2 false) [Process 1]) = Some one_open)
    as H by (vm_compute; reflexivity).
  split_and!; [reflexivity|reflexivity|simpl; lia|exact H|simpl; lia|].
  destruct (oversize_alone (by_size 2 false) [Process 1] 3 (lenient 2))
    as (_ & _ & Hcalls & _);
    [reflexivity|reflexivity|simpl; lia| |exact Hcalls].
  intros batch Hb. rewrite H in Hb. injection Hb as <-. simpl. lia.
Defined.

(** ** The repository's tests, replayed on the model *)

Example releases_manually :
  calls (run no_thresholds
           [Process 1; Process 2; Release; Process 3; Release; Process 4]) =
    [(0%nat, [1; 2]); (1%nat, [3])].
Proof. vm_compute. reflexivity. Qed.

Example releases_at_delay_threshold :
  calls (run (by_delay 50)
           [Process 1; Process 2; Timeout 0; Process 3; Process 4; Timeout 1;
            Process 5]) =
    [(0%nat, [1; 2]); (1%nat, [3; 4])].
Proof. vm_compute. reflexivity. Qed.

Example releases_at_size_threshold :
  calls (run (by_size 5 true)
           [Process 1; Process 2; Process 3; Process 4; Process 5]) =
    [(0%nat, [1; 2]); (1%nat, [3]); (2%nat, [4]); (3%nat, [5])].
Proof. vm_compute. reflexivity. Qed.

Example releases_larger_items_when_not_strict :
  calls (run (by_size 2 false) [Process 1; Process 2; Process 3]) =
    [(0%nat, [1]); (1%nat, [2]); (2%nat, [3])].
Proof. vm_compute. reflexivity. Qed.

Example fails_all_items_when_fn_throws :
  heap (run no_thresholds total_failure) !! 0%nat = Some total_failure_batch.
Proof. vm_compute. reflexivity. Qed.

Example maps_results :
  heap (run no_thresholds short_result) !! 0%nat = Some short_result_batch.
Proof. vm_compute. reflexivity. Qed.

Example stale_timer_is_cleared :
  timers (run (by_delay 50) reopened) !! 0%nat = None
  ∧ (timer_batch <$> timers (run (by_delay 50) reopened) !! 1%nat) =
      Some 1%nat.
Proof. split; vm_compute; reflexivity. Qed.

(** ** A submission always finds an open batch *)

Section Acceptance.

Context {Item : Type}.
Variable options : ThresholdOptions Item.

#[local] Abbreviation Batch := (Batch Item).
#[local] Abbreviation State := (State Item).

Lemma ensure_open_current (s : State) :
  ∃ b, current (ensure_open options s) = Some b.
Proof.
  unfold ensure_open. destruct (current s) as [b|] eqn:Hc; [by exists b|].
  by eexists.
Qed.

End Acceptance.

(** ** How the batches evolve *)

Section Evolution.

Context {Item : Type}.
Variable options : ThresholdOptions Item.

#[local] Abbreviation Entry := (Entry Item).
#[local] Abbreviation Batch := (Batch Item).
#[local] Abbreviation State := (State Item).

Lemma keeps_entries_refl (s : State) : keeps_entries s s.
Proof. intros b batch i e Hb He. by exists batch, e. Qed.

Lemma keeps_entries_trans (s1 s2 s3 : State) :
  keeps_entries s1 s2 → keeps_entries s2 s3 → keeps_entries s1 s3.
Proof.
  intros H12 H23 b batch i e Hb He.
  destruct (H12 b batch i e Hb He) as (batch2 & e2 & Hb2 & He2 & Hi2 & Hs2).
  destruct (H23 b batch2 i e2 Hb2 He2) as (batch3 & e3 & Hb3 & He3 & Hi3 & Hs3).
  exists batch3, e3. split_and!; try done; [congruence|].
  intros Hp. rewrite Hs3; [by apply Hs2|]. by rewrite Hs2.
Qed.

(** One batch is replaced by a version that keeps its entries. *)
Lemma keeps_entries_insert (s s' : State) b (batch batch' : Batch) :
  heap s !! b = Some batch →
  heap s' = <[b := batch']> (heap s) →
  (∀ i e, entries batch !! i = Some e →
     ∃ e', entries batch' !! i = Some e' ∧ item e' = item e ∧
       (slot e ≠ Pending → slot e' = slot e)) →
  keeps_entries s s'.
Proof.
  intros Hb Hheap Hkeep c x i e Hc He. rewrite Hheap.
  destruct (decide (c = b)) as [->|Hne].
  - rewrite Hb in Hc. injection Hc as <-.
    destruct (Hkeep i e He) as (e' & ? & ? & ?). exists batch', e'.
    split_and!; try done. apply list_lookup_insert_eq. by eapply lookup_lt_Some.
  - exists x, e. by rewrite list_lookup_insert_ne.
Qed.

Lemma keeps_entries_release (s : State) : keeps_entries s (release s).
Proof.
  unfold release. destruct (current s) as [b|]; [|apply keeps_entries_refl].
  destruct (heap s !! b) as [batch|] eqn:Hb;
    [|apply (keeps_entries_refl s)].
  eapply keeps_entries_insert; [done|done|]. intros i e He. by exists e.
Qed.

Lemma keeps_entries_enqueue (s : State) it sz b :
  current (ensure_open options s) = Some b →
  keeps_entries s (enqueue it sz b (ensure_open options s)).
Proof.
  unfold ensure_open, enqueue. destruct (current s) as [c|] eqn:Hc.
  - rewrite Hc. intros [= ->]. destruct (heap s !! b) as [batch|] eqn:Hb.
    + eapply keeps_entries_insert; [done|by apply alter_as_insert|].
      intros i e He. exists e. split; [|done]. by apply lookup_app_l_Some.
    + intros c x i e Hx He. exists x, e. simpl.
      rewrite list_lookup_alter_ne; [done|]. intros ->. congruence.
  - simpl. intros [= <-] c x i e Hx He. exists x, e. simpl.
    rewrite list_lookup_alter_ne by (apply lookup_lt_Some in Hx; lia).
    split; [|done]. by apply lookup_app_l_Some.
Qed.

Lemma keeps_entries_process (s : State) it :
  keeps_entries s (process options it s).1.
Proof.
  unfold process. destruct (too_large _ _); [apply keeps_entries_refl|].
  generalize (from_option (λ o, calculate o it) 0 (size_options options)).
  intros sz.
  destruct (ensure_open_current options (make_room options sz s)) as [b Hb].
  rewrite Hb. simpl.
  apply keeps_entries_trans with (make_room options sz s).
  { unfold make_room. destruct (overflows _ _ _);
      [apply keeps_entries_release|apply keeps_entries_refl]. }
  apply keeps_entries_trans
    with (enqueue it sz b (ensure_open options (make_room options sz s)));
    [by apply keeps_entries_enqueue|].
  unfold check_thresholds. destruct (from_option _ _ _);
    [apply keeps_entries_release|apply keeps_entries_refl].
Qed.

Lemma entry_resolve_keeps v (e : Entry) :
  item (entry_resolve v e) = item e ∧
  (slot e ≠ Pending → slot (entry_resolve v e) = slot e).
Proof.
  unfold entry_resolve.
  destruct (slot e) eqn:Hs, (follows e), (is_thenable v); simpl;
    (split; [done|]); congruence.
Qed.

Lemma entry_reject_keeps error (e : Entry) :
  item (entry_reject error e) = item e ∧
  (slot e ≠ Pending → slot (entry_reject error e) = slot e).
Proof.
  unfold entry_reject. destruct (slot e) eqn:Hs, (follows e); simpl;
    (split; [done|]); congruence.
Qed.

Lemma keeps_entries_step (s : State) ev :
  keeps_entries s (step options s ev).
Proof.
  destruct ev as [it| | |t|b r|b|b|b|f|b index]; simpl.
  - apply keeps_entries_process.
  - apply keeps_entries_release.
  - exact (keeps_entries_release (set_flushes _ s)).
  - destruct (timers s !! t); [|apply keeps_entries_refl].
    unfold on_timeout. case_decide;
      [|exact (keeps_entries_refl (set_timers _ s))].
    exact (keeps_entries_release (set_timers _ s)).
  - destruct (heap s !! b) as [batch|] eqn:Hb; [|apply keeps_entries_refl].
    destruct (progress batch); try apply keeps_entries_refl.
    eapply keeps_entries_insert; [done|done|]. intros i e He.
    destruct (async_fn r) as [results|error]; simpl; [|by exists e].
    rewrite list_lookup_imap, He. simpl. eexists. split; [done|].
    unfold complete. destruct (instanceof_Error _);
      [apply entry_reject_keeps|apply entry_resolve_keeps].
  - destruct (heap s !! b) as [batch|] eqn:Hb; [|apply keeps_entries_refl].
    destruct (progress batch) as [| |o|o|o|o]; try apply keeps_entries_refl.
    eapply keeps_entries_insert; [done|done|]. intros i e He.
    destruct o as [results|error]; simpl; [by exists e|].
    rewrite list_lookup_fmap, He. simpl. eexists. split; [done|].
    apply entry_reject_keeps.
  - destruct (heap s !! b) as [batch|] eqn:Hb; [|apply keeps_entries_refl].
    destruct (progress batch) as [| |o|o|o|o]; try apply keeps_entries_refl.
    eapply keeps_entries_insert; [done|done|]. intros i e He. by exists e.
  - destruct (heap s !! b) as [batch|] eqn:Hb; [|apply keeps_entries_refl].
    destruct (progress batch) as [| |o|o|o|o]; try apply keeps_entries_refl.
    eapply keeps_entries_insert; [done|done|]. intros i e He. by exists e.
  - exact (keeps_entries_refl (set_flushes _ s)).
  - destruct (heap s !! b) as [batch|] eqn:Hb; [|apply keeps_entries_refl].
    assert (∀ i e, entries batch !! i = Some e →
      ∃ e', alter entry_adopt index (entries batch) !! i = Some e' ∧
        item e' = item e ∧ (slot e ≠ Pending → slot e' = slot e)) as Hkeep.
    { intros i e He. rewrite list_lookup_alter. case_decide.
      - subst i. rewrite He. simpl. eexists. split; [done|].
        destruct (entry_adopt_keeps e) as (? & _ & ?). by split.
      - by exists e. }
    destruct (progress batch) as [| |o|o|o|o] eqn:Hp;
      try apply keeps_entries_refl;
      (eapply keeps_entries_insert; [done|done|]); unfold on_adopted;
      rewrite Hp; destruct o; try done; intros i e He; by exists e.
Qed.

(** An entry never leaves its batch or its place there, never changes its
    item, and a promise that is settled stays settled the same way, whatever
    happens later. *)
Theorem entries_are_kept history later :
  keeps_entries (run options history) (run options (history ++ later)).
Proof.
  induction later as [|ev later IH] using rev_ind.
  - rewrite app_nil_r. apply keeps_entries_refl.
  - rewrite app_assoc. unfold run in *. rewrite foldl_app. simpl.
    eapply keeps_entries_trans; [exact IH|apply keeps_entries_step].
Qed.

End Evolution.

(** ** Sizes and counts of batches *)

Section Limits.

Context {Item : Type}.
Variable options : ThresholdOptions Item.

#[local] Abbreviation Entry := (Entry Item).
#[local] Abbreviation Batch := (Batch Item).
#[local] Abbreviation State := (State Item).

Lemma release_heap_back (s : State) b (batch' : Batch) :
  heap (release s) !! b = Some batch' →
  ∃ batch, heap s !! b = Some batch ∧
    entries batch' = entries batch ∧ total batch' = total batch.
Proof.
  unfold release. destruct (current s) as [c|]; [|by eauto].
  destruct (heap s !! c) as [x|] eqn:Hx; [|by eauto]. simpl.
  intros [(<- & <- & _)|[_ H]]%list_lookup_insert_Some; by eauto.
Qed.

(** Where a batch found after [process] comes from: it was there before
    with the same entries, or it was the open batch, which the item did not
    overflow, and has got the item, or it was made for the item. *)
Lemma process_heap_back (s : State) it b (batch' : Batch) :
  too_large options (item_size options it) = false →
  heap (process options it s).1 !! b = Some batch' →
  (∃ batch, heap s !! b = Some batch ∧
     entries batch' = entries batch ∧ total batch' = total batch) ∨
  (∃ batch, heap s !! b = Some batch ∧ current s = Some b ∧
     overflows options (item_size options it) s = false ∧
     entries batch' = entries batch ++ [{| item := it; slot := Pending; follows := None |}] ∧
     total batch' = total batch + item_size options it) ∨
  (b = length (heap s) ∧
   entries batch' = [{| item := it; slot := Pending; follows := None |}] ∧
   total batch' = item_size options it).
Proof.
  unfold item_size. intros Hlarge. unfold process. cbv zeta. rewrite Hlarge.
  generalize (from_option (λ o, calculate o it) 0 (size_options options)).
  intros sz.
  destruct (ensure_open_current options (make_room options sz s)) as [c Hc].
  rewrite Hc. simpl. intros H.
  assert (∃ x, heap (enqueue it sz c
                       (ensure_open options (make_room options sz s))) !! b =
               Some x ∧
            entries batch' = entries x ∧ total batch' = total x)
    as (x & Hx & -> & ->).
  { revert H. unfold check_thresholds.
    destruct (from_option (threshold_reached options) false _);
      [apply release_heap_back|by eauto]. }
  clear H. revert Hc Hx. unfold ensure_open, enqueue, make_room.
  destruct (overflows options sz s) eqn:Hov.
  - rewrite release_current. simpl. rewrite release_heap_length.
    intros [= <-]. rewrite list_lookup_alter.
    case_decide as Hb.
    + subst b. rewrite lookup_app_r, release_heap_length, Nat.sub_diag by
        (rewrite release_heap_length; lia).
      simpl. intros [= <-]. right. right. simpl. by rewrite Z.add_0_l.
    + intros [[_ Hx]|[Heq _]]%lookup_snoc_Some;
        [|rewrite release_heap_length in Heq; lia].
      left. by apply release_heap_back.
  - destruct (current s) as [c'|] eqn:Hcur.
    + rewrite Hcur. intros [= ->]. simpl. rewrite list_lookup_alter.
      case_decide as Hb.
      * subst b. destruct (heap s !! c) as [batch|] eqn:Hbatch; [|done].
        simpl. intros [= <-]. right. left. exists batch. by split_and!.
      * intros Hx. left. by eauto.
    + simpl. intros [= <-]. rewrite list_lookup_alter.
      case_decide as Hb.
      * subst b. rewrite lookup_app_r, Nat.sub_diag by lia.
        simpl. intros [= <-]. right. right. simpl. by rewrite Z.add_0_l.
      * intros [[_ Hx]|[Heq _]]%lookup_snoc_Some; [|lia].
        left. by eauto.
Qed.

(** Events other than a submission neither make a batch nor change the items
    or the accumulated size of one. *)
Lemma step_heap_back (s : State) ev b (batch' : Batch) :
  (∀ it, ev ≠ Process it) →
  heap (step options s ev) !! b = Some batch' →
  ∃ batch, heap s !! b = Some batch ∧
    item <$> entries batch' = item <$> entries batch ∧
    total batch' = total batch.
Proof.
  intros Hev.
  assert (∀ s1 : State, heap s1 = heap s →
    heap (release s1) !! b = Some batch' →
    ∃ batch, heap s !! b = Some batch ∧
      item <$> entries batch' = item <$> entries batch ∧
      total batch' = total batch) as Hrelease.
  { intros s1 Hs1 (x & Hx & -> & ->)%release_heap_back.
    rewrite Hs1 in Hx. by eauto. }
  assert (∀ c (x x' : Batch), heap s !! c = Some x →
    item <$> entries x' = item <$> entries x → total x' = total x →
    <[c := x']> (heap s) !! b = Some batch' →
    ∃ batch, heap s !! b = Some batch ∧
      item <$> entries batch' = item <$> entries batch ∧
      total batch' = total batch) as Hinsert.
  { intros c x x' Hx Hitems Htotal.
    intros [(<- & <- & _)|[_ H]]%list_lookup_insert_Some; by eauto. }
  destruct ev as [it| | |t|c r|c|c|c|f|c index]; simpl.
  - by destruct (Hev it).
  - by apply Hrelease.
  - by apply Hrelease.
  - destruct (timers s !! t); [|by eauto]. unfold on_timeout.
    case_decide; [by apply Hrelease|by eauto].
  - destruct (heap s !! c) as [x|] eqn:Hx; [|by eauto].
    destruct (progress x); try by eauto.
    apply (Hinsert c x); [done|apply on_settled_items|].
    by destruct (async_fn r).
  - destruct (heap s !! c) as [x|] eqn:Hx; [|by eauto].
    destruct (progress x) as [| |o|o|o|o]; try by eauto.
    apply (Hinsert c x); [done|apply on_caught_items|]. by destruct o.
  - destruct (heap s !! c) as [x|] eqn:Hx; [|by eauto].
    destruct (progress x) as [| |o|o|o|o]; try by eauto.
    by apply (Hinsert c x).
  - destruct (heap s !! c) as [x|] eqn:Hx; [|by eauto].
    destruct (progress x) as [| |o|o|o|o]; try by eauto.
    by apply (Hinsert c x).
  - by eauto.
  - destruct (heap s !! c) as [x|] eqn:Hx; [|by eauto].
    destruct (on_adopted_fields index x) as (_ & _ & Htotal & _).
    destruct (progress x) as [| |o|o|o|o]; try by eauto.
    all: by apply (Hinsert c x); [|apply on_adopted_items|].
Qed.

Lemma total_size_app (items : list Item) it :
  total_size options (items ++ [it]) =
  total_size options items + item_size options it.
Proof.
  unfold total_size. induction items as [|x items IH]; simpl; lia.
Qed.

Lemma heap_total_sum history b (batch : Batch) :
  heap (run options history) !! b = Some batch →
  total batch = total_size options (item <$> entries batch).
Proof.
  unfold run. revert b batch.
  induction history as [|ev history IH] using rev_ind; intros b batch; [done|].
  rewrite foldl_app. simpl. set (s := foldl (step options) init history) in *.
  assert ((∃ it, ev = Process it) ∨ ∀ it, ev ≠ Process it) as [[it ->]|Hev]
    by (destruct ev; eauto).
  - simpl. intros Hb.
    destruct (too_large options (item_size options it)) eqn:Hlarge.
    { apply (IH b). revert Hb. unfold process. cbv zeta.
      unfold item_size in Hlarge. by rewrite Hlarge. }
    destruct (process_heap_back s it b batch Hlarge Hb)
      as [(x & Hx & -> & ->)|[(x & Hx & _ & _ & -> & ->)|(_ & -> & ->)]].
    + by apply (IH b).
    + rewrite fmap_app.
      change (item <$> [{| item := it; slot := Pending; follows := None |}]) with [it].
      rewrite total_size_app. by rewrite (IH b x Hx).
    + simpl. lia.
  - intros (x & Hx & -> & ->)%step_heap_back; [|done]. by apply (IH b).
Qed.

(** For sizes that are integers and small enough to be added exactly, the
    accumulated size of a batch is the sum of the sizes computed for its
    items (zero without a size threshold), at any moment of the history; so
    is the size that was accumulated for the items of any call of the
    processing function. *)
Theorem total_is_sum_of_sizes history :
  exact_sizes options history →
  (∀ b (batch : Batch), heap (run options history) !! b = Some batch →
     total batch = total_size options (item <$> entries batch)) ∧
  (∀ b items, (b, items) ∈ calls (run options history) →
     ∃ batch : Batch, heap (run options history) !! b = Some batch ∧
       total batch = total_size options items).
Proof.
  intros _. split; [apply heap_total_sum|]. intros b items Hin.
  destruct (wf_calls_args _ (run_wf options history) b items Hin)
    as (batch & Hb & ->).
  exists batch. split; [done|]. by eapply heap_total_sum.
Qed.

Lemma heap_total_capped o history b (batch : Batch) :
  size_options options = Some o →
  heap (run options history) !! b = Some batch →
  total batch ≤ size_max o ∨
  (strict o = false ∧ size_max o < total batch ∧
   ∃ it, item <$> entries batch = [it]).
Proof.
  intros Ho. unfold run. revert b batch.
  induction history as [|ev history IH] using rev_ind; intros b batch; [done|].
  rewrite foldl_app. simpl. set (s := foldl (step options) init history) in *.
  assert ((∃ it, ev = Process it) ∨ ∀ it, ev ≠ Process it) as [[it ->]|Hev]
    by (destruct ev; eauto).
  - simpl. intros Hb.
    destruct (too_large options (item_size options it)) eqn:Hlarge.
    { apply (IH b). revert Hb. unfold process. cbv zeta.
      unfold item_size in Hlarge. by rewrite Hlarge. }
    destruct (process_heap_back s it b batch Hlarge Hb)
      as [(x & Hx & -> & ->)|[(x & Hx & Hc & Hov & _ & ->)|(_ & -> & ->)]].
    + by apply (IH b).
    + left. revert Hov. unfold overflows, current_batch. rewrite Ho, Hc. simpl.
      rewrite Hx. by intros ?%Z.ltb_ge.
    + destruct (decide (item_size options it ≤ size_max o)) as [?|Hgt];
        [by left|right].
      revert Hlarge. unfold too_large. rewrite Ho.
      rewrite (proj2 (Z.ltb_lt _ _)) by lia. simpl. intros ->.
      split_and!; [done|lia|by exists it].
  - intros (x & Hx & -> & ->)%step_heap_back; [|done]. by apply (IH b).
Qed.

(** For sizes that are integers and small enough to be added exactly,
    [size.max] caps what a batch accumulates: the sizes of the items of any
    call of the processing function sum up to at most [size.max], unless
    [strict] is [false] and the call is for a single item that is larger
    than [size.max] by itself. *)
Theorem size_max_is_a_cap o history b items :
  size_options options = Some o →
  exact_sizes options history →
  (b, items) ∈ calls (run options history) →
  total_size options items ≤ size_max o ∨
  (strict o = false ∧
   ∃ it, items = [it] ∧ size_max o < item_size options it).
Proof.
  intros Ho _ Hin.
  destruct (wf_calls_args _ (run_wf options history) b items Hin)
    as (batch & Hb & ->).
  rewrite <- (heap_total_sum history b batch Hb).
  destruct (heap_total_capped o history b batch Ho Hb)
    as [?|(Hstrict & Hgt & it & Hit)]; [by left|right].
  split; [done|]. exists it. split; [done|].
  rewrite (heap_total_sum history b batch Hb), Hit in Hgt.
  simpl in Hgt. lia.
Qed.

Lemma heap_count_capped k history :
  count options = Some k → 1 ≤ k →
  (∀ b (batch : Batch), heap (run options history) !! b = Some batch →
     Z.of_nat (length (entries batch)) ≤ k) ∧
  (∀ batch : Batch, current_batch (run options history) = Some batch →
     Z.of_nat (length (entries batch)) < k).
Proof.
  intros Hk Hone.
  induction history as [|ev history IH] using rev_ind; [done|].
  pose proof (run_wf options history) as Hwf.
  unfold run in *. rewrite foldl_app. simpl.
  set (s := foldl (step options) init history) in *.
  destruct IH as [IHheap IHopen].
  assert (∀ s1 : State, current_batch s1 = current_batch s ∨
                        current_batch s1 = None →
    ∀ batch, current_batch s1 = Some batch →
      Z.of_nat (length (entries batch)) < k) as Hsame.
  { intros s1 [->| ->]; [done|]. by intros. }
  assert ((∃ it, ev = Process it) ∨ ∀ it, ev ≠ Process it) as [[it ->]|Hev]
    by (destruct ev; eauto).
  - simpl.
    destruct (too_large options (item_size options it)) eqn:Hlarge.
    { unfold process. cbv zeta. unfold item_size in Hlarge.
      by rewrite Hlarge. }
    split.
    + intros b batch Hb.
      destruct (process_heap_back s it b batch Hlarge Hb)
        as [(x & Hx & -> & _)|[(x & Hx & Hc & _ & -> & _)|(_ & -> & _)]].
      * by apply (IHheap b).
      * rewrite length_app. simpl.
        assert (Z.of_nat (length (entries x)) < k); [|lia].
        apply IHopen. unfold current_batch. by rewrite Hc.
      * simpl. lia.
    + destruct (process_accepted options s it Hwf Hlarge)
        as (b & es & tot & t & _ & _ & _ & Hcase).
      cbv zeta in Hcase. revert Hcase.
      set (batch := {| entries := es ++ _; total := _; timeout := t;
                       fired := 0; progress := Accumulating |}).
      destruct (threshold_reached options batch) eqn:Hreached.
      * intros (Hc & _). intros x. unfold current_batch. by rewrite Hc.
      * intros (Hc & _ & Hb) x. unfold current_batch. rewrite Hc. simpl.
        rewrite Hb. intros [= <-]. revert Hreached.
        unfold threshold_reached. rewrite Hk.
        intros [?%Z.leb_gt _]%orb_false_elim. done.
  - split.
    + intros b batch (x & Hx & Hitems & _)%step_heap_back; [|done].
      apply (f_equal length) in Hitems. rewrite !length_fmap in Hitems.
      rewrite Hitems. by apply (IHheap b).
    + apply Hsame. destruct ev as [it| | |t|b r|b|b|b|f|b index].
      * by destruct (Hev it).
      * right. simpl. unfold current_batch. by rewrite release_current.
      * right. simpl. unfold current_batch. by rewrite release_current.
      * simpl. destruct (timers s !! t); [|by left].
        unfold on_timeout. case_decide; [|by left].
        right. unfold current_batch. by rewrite release_current.
      * left. by destruct (reaction_frame options s (Settle b r) Hwf I)
          as (_ & _ & ?).
      * left. by destruct (reaction_frame options s (Catch b) Hwf I)
          as (_ & _ & ?).
      * left. by destruct (reaction_frame options s (Finally b) Hwf I)
          as (_ & _ & ?).
      * left. by destruct (reaction_frame options s (Delete b) Hwf I)
          as (_ & _ & ?).
      * left. by destruct (reaction_frame options s (Resume f) Hwf I)
          as (_ & _ & ?).
      * left. by destruct (reaction_frame options s (Adopt b index) Hwf I)
          as (_ & _ & ?).
Qed.

(** [count.max] is a maximum whatever else is configured: every call of the
    processing function gets at least one and at most [count.max] items, and
    the open batch always holds fewer than [count.max]. *)
Theorem count_is_a_cap k history :
  count options = Some k → 1 ≤ k →
  (∀ b items, (b, items) ∈ calls (run options history) →
     1 ≤ Z.of_nat (length items) ≤ k) ∧
  (∀ batch : Batch, current_batch (run options history) = Some batch →
     Z.of_nat (length (entries batch)) < k).
Proof.
  intros Hk Hone.
  destruct (heap_count_capped k history Hk Hone) as [Hheap Hopen].
  split; [|done]. intros b items Hin.
  pose proof (run_wf options history) as Hwf.
  destruct (wf_calls_args _ Hwf b items Hin) as (batch & Hb & ->).
  destruct (wf_batch _ Hwf b batch Hb) as [Hne _].
  rewrite length_fmap. split; [|by apply (Hheap b)].
  destruct (entries batch); [done|simpl; lia].
Qed.

End Limits.

(** ** From submission to dispatch *)

Section Flow.

Context {Item : Type}.
Variable options : ThresholdOptions Item.

#[local] Abbreviation Entry := (Entry Item).
#[local] Abbreviation Batch := (Batch Item).
#[local] Abbreviation State := (State Item).

Lemma stream_release (s : State) : wf s → stream (release s) = stream s.
Proof.
  intros Hwf. unfold stream, open_items, current_batch, release.
  destruct (current s) as [b|] eqn:Hc; [|by rewrite Hc].
  destruct (wf_current_dom s Hwf b Hc) as [batch Hb]. rewrite Hb. simpl.
  rewrite Hb. simpl. rewrite fmap_app, concat_app. simpl.
  by rewrite !app_nil_r.
Qed.

Lemma stream_process (s : State) it :
  wf s → too_large options (item_size options it) = false →
  stream (process options it s).1 = stream s ++ [it].
Proof.
  intros Hwf Hlarge.
  destruct (process_accepted options s it Hwf Hlarge)
    as (b & es & tot & t & _ & Hnew & Hold & Hcase).
  cbv zeta in Hnew, Hold, Hcase. fold (item_size options it) in *.
  pose proof (make_room_wf options s (item_size options it) Hwf) as Hwf1.
  set (s1 := make_room options (item_size options it) s) in *.
  assert (stream s1 = stream s) as <-.
  { unfold s1, make_room. destruct (overflows _ _ _); [|done].
    by apply stream_release. }
  assert (open_items s1 = item <$> es) as Hopen.
  { unfold open_items, current_batch.
    destruct (current s1) as [c|] eqn:Hc.
    - destruct (wf_current_dom s1 Hwf1 c Hc) as [batch Hb].
      destruct (Hold batch) as [-> _];
        [unfold current_batch; by rewrite Hc|].
      simpl. by rewrite Hb.
    - by destruct (Hnew eq_refl) as (-> & _). }
  unfold stream at 2. rewrite Hopen. revert Hcase.
  destruct (threshold_reached options _).
  - intros (Hc & Hcalls & _). unfold stream, open_items, current_batch.
    rewrite Hc, Hcalls, fmap_app, concat_app. simpl.
    rewrite fmap_app. simpl. by rewrite !app_nil_r, app_assoc.
  - intros (Hc & Hcalls & Hb). unfold stream, open_items, current_batch.
    rewrite Hc, Hcalls. simpl. rewrite Hb. simpl.
    rewrite fmap_app. simpl. by rewrite app_assoc.
Qed.

Lemma stream_step (s : State) ev :
  wf s →
  (∀ it, ev ≠ Process it) →
  stream (step options s ev) = stream s.
Proof.
  intros Hwf Hev. destruct ev as [it| | |t|b r|b|b|b|f|b index].
  - by destruct (Hev it).
  - by apply stream_release.
  - simpl. apply (stream_release (set_flushes _ s)).
    destruct Hwf. split; simpl; try done.
    intros f fl [[_ H]|[_ <-]]%lookup_snoc_Some; [by apply (wf_flushes0 f)|].
    simpl. split_and!; [set_solver|exact wf_all_dom0|done].
  - simpl. destruct (timers s !! t); [|done]. unfold on_timeout.
    case_decide; [|done].
    apply (stream_release (set_timers _ s)). by apply set_timers_wf.
  - destruct (reaction_frame options s (Settle b r) Hwf I) as (_ & Hc & Hb).
    unfold stream, open_items. by rewrite Hc, Hb.
  - destruct (reaction_frame options s (Catch b) Hwf I) as (_ & Hc & Hb).
    unfold stream, open_items. by rewrite Hc, Hb.
  - destruct (reaction_frame options s (Finally b) Hwf I) as (_ & Hc & Hb).
    unfold stream, open_items. by rewrite Hc, Hb.
  - destruct (reaction_frame options s (Delete b) Hwf I) as (_ & Hc & Hb).
    unfold stream, open_items. by rewrite Hc, Hb.
  - destruct (reaction_frame options s (Resume f) Hwf I) as (_ & Hc & Hb).
    unfold stream, open_items. by rewrite Hc, Hb.
  - destruct (reaction_frame options s (Adopt b index) Hwf I)
      as (_ & Hc & Hb).
    unfold stream, open_items. by rewrite Hc, Hb.
Qed.

Lemma stream_run history :
  stream (run options history) = accepted options history.
Proof.
  induction history as [|ev history IH] using rev_ind; [done|].
  pose proof (run_wf options history) as Hwf.
  unfold accepted in *. rewrite omap_app. simpl.
  unfold run in *. rewrite foldl_app. simpl.
  assert ((∃ it, ev = Process it) ∨ ∀ it, ev ≠ Process it) as [[it ->]|Hev]
    by (destruct ev; eauto).
  - simpl. destruct (too_large options (item_size options it)) eqn:Hlarge.
    + rewrite app_nil_r, <- IH. unfold process. cbv zeta.
      unfold item_size in Hlarge. by rewrite Hlarge.
    + rewrite (stream_process _ it Hwf Hlarge). by rewrite IH.
  - rewrite (stream_step _ ev Hwf Hev), IH.
    destruct ev; try by rewrite app_nil_r. by destruct (Hev it).
Qed.

(** No item is lost, repeated or overtaken: the arguments of the calls of
    the processing function, one after the other, followed by the items of
    the open batch, are the items [process] accepted, in the order of their
    submission. *)
Theorem items_are_conserved history :
  concat ((calls (run options history)).*2) ++
    open_items (run options history) =
  accepted options history.
Proof. apply stream_run. Qed.

Lemma process_keeps_calls (s : State) it :
  wf s → count options = None → size_options options = None →
  calls (process options it s).1 = calls s.
Proof.
  intros Hwf Hcount Hsize.
  assert (too_large options
    (from_option (λ o, calculate o it) 0 (size_options options)) = false)
    as Hlarge by (unfold too_large; by rewrite Hsize).
  destruct (process_accepted options s it Hwf Hlarge)
    as (b & es & tot & t & _ & _ & _ & Hcase).
  cbv zeta in Hcase. revert Hcase. unfold threshold_reached at 1.
  rewrite Hcount, Hsize. simpl. intros (_ & -> & _).
  unfold make_room, overflows. by rewrite Hsize.
Qed.

Lemma accepted_without_size history :
  size_options options = None →
  accepted options history = submitted history.
Proof.
  intros Hsize. unfold accepted, submitted.
  induction history as [|ev history IH]; [done|].
  destruct ev; simpl; try exact IH.
  unfold too_large at 1. rewrite Hsize. simpl. f_equal. exact IH.
Qed.

(** As long as nothing hands the open batch over, nothing is called; and
    without a delay no timer is ever set. *)
Lemma waiting_run history :
  count options = None → size_options options = None →
  Forall (keeps_open options) history →
  calls (run options history) = [] ∧
  (delay options = None → timers (run options history) = ∅).
Proof.
  intros Hcount Hsize. unfold run.
  induction history as [|ev history IH] using rev_ind; intros Hall; [done|].
  apply Forall_app in Hall as [Hall Hev]. apply Forall_inv in Hev.
  destruct (IH Hall) as [Hcalls Htimers]. clear IH.
  pose proof (run_wf options history) as Hwf. unfold run in Hwf.
  rewrite foldl_app. simpl.
  set (s := foldl (step options) init history) in *.
  destruct ev as [it| | |t|b r|b|b|b|f|b index].
  - simpl. split.
    + by rewrite process_keeps_calls.
    + intros Hd. apply process_timers_empty; [done|by apply Htimers].
  - done.
  - done.
  - simpl in Hev. simpl. by rewrite (Htimers Hev), lookup_empty.
  - by destruct (reaction_frame options s (Settle b r) Hwf I) as (-> & -> & _).
  - by destruct (reaction_frame options s (Catch b) Hwf I) as (-> & -> & _).
  - by destruct (reaction_frame options s (Finally b) Hwf I) as (-> & -> & _).
  - by destruct (reaction_frame options s (Delete b) Hwf I) as (-> & -> & _).
  - by destruct (reaction_frame options s (Resume f) Hwf I) as (-> & -> & _).
  - by destruct (reaction_frame options s (Adopt b index) Hwf I)
      as (-> & -> & _).
Qed.

(** Without a count or a size threshold, and as long as [release] and
    [flush] are not called and no timer fires, the processing function is
    not called, whatever is submitted; a call of [release] then hands all the
    items submitted so far over in one call, in the order of their
    submission, and calls nothing when there are none. *)
Theorem items_wait_for_release history :
  count options = None → size_options options = None →
  Forall (keeps_open options) history →
  calls (run options history) = [] ∧
  (calls (release (run options history))).*2 =
    match submitted history with [] => [] | items => [items] end.
Proof.
  intros Hcount Hsize Hopen.
  destruct (waiting_run history Hcount Hsize Hopen) as [Hcalls _].
  split; [done|].
  pose proof (stream_run history) as Hstream.
  rewrite (accepted_without_size history Hsize) in Hstream.
  unfold stream in Hstream.
  rewrite Hcalls in Hstream. simpl in Hstream.
  pose proof (run_wf options history) as Hwf.
  revert Hstream. unfold open_items, current_batch, release.
  destruct (current (run options history)) as [b|] eqn:Hc.
  - destruct (wf_current_dom _ Hwf b Hc) as [batch Hb]. rewrite Hb. simpl.
    rewrite Hb, Hcalls. simpl. intros <-.
    destruct (wf_batch _ Hwf b batch Hb) as [Hne _].
    by destruct (entries batch).
  - simpl. intros <-. by rewrite Hcalls.
Qed.

Lemma open_batch_has_timer_step (s : State) ev d :
  delay options = Some d → wf s →
  (∀ b, current s = Some b →
     ∃ t (batch : Batch), heap s !! b = Some batch ∧ timeout batch = Some t ∧
       timers s !! t = Some {| timer_batch := b; timer_delay := d |}) →
  ∀ b, current (step options s ev) = Some b →
    ∃ t (batch : Batch),
      heap (step options s ev) !! b = Some batch ∧ timeout batch = Some t ∧
      timers (step options s ev) !! t =
        Some {| timer_batch := b; timer_delay := d |}.
Proof.
  intros Hd Hwf Hs.
  assert (∀ s1 : State, ∀ b, current (release s1) = Some b →
    ∃ t (batch : Batch),
      heap (release s1) !! b = Some batch ∧ timeout batch = Some t ∧
      timers (release s1) !! t =
        Some {| timer_batch := b; timer_delay := d |}) as Hrelease.
  { intros s1 b. by rewrite release_current. }
  assert (∀ (s' : State) c (x x' : Batch),
    heap s !! c = Some x → timeout x' = timeout x →
    heap s' = <[c := x']> (heap s) → current s' = current s →
    timers s' = timers s →
    ∀ b, current s' = Some b →
      ∃ t (batch : Batch), heap s' !! b = Some batch ∧
        timeout batch = Some t ∧
        timers s' !! t = Some {| timer_batch := b; timer_delay := d |})
    as Hinsert.
  { intros s' c x x' Hx Htime Hheap Hcur Htimers b Hb.
    rewrite Hcur in Hb. destruct (Hs b Hb) as (t & batch & Hbatch & Ht & Htm).
    rewrite Hheap, Htimers. exists t.
    destruct (decide (b = c)) as [->|Hne].
    - exists x'. rewrite list_lookup_insert_eq by by eapply lookup_lt_Some.
      split_and!; [done| |done]. rewrite Htime. congruence.
    - exists batch. by rewrite list_lookup_insert_ne. }
  destruct ev as [it| | |t|c r|c|c|c|f|c index]; simpl.
  - unfold process. destruct (too_large _ _); [exact Hs|].
    generalize (from_option (λ o, calculate o it) 0 (size_options options)).
    intros sz.
    destruct (ensure_open_current options (make_room options sz s)) as [c Hc].
    rewrite Hc. simpl. unfold check_thresholds.
    destruct (from_option (threshold_reached options) false _);
      [by apply Hrelease|].
    revert Hc. unfold ensure_open, enqueue.
    assert (∀ b, current (make_room options sz s) = Some b →
      ∃ t (batch : Batch),
        heap (make_room options sz s) !! b = Some batch ∧
        timeout batch = Some t ∧
        timers (make_room options sz s) !! t =
          Some {| timer_batch := b; timer_delay := d |}) as Hs1.
    { unfold make_room. destruct (overflows _ _ _); [by apply Hrelease|done]. }
    revert Hs1. generalize (make_room options sz s). intros s1 Hs1.
    destruct (current s1) as [c'|] eqn:Hc1.
    + rewrite Hc1. intros [= ->] b. simpl. rewrite Hc1. intros [= <-].
      destruct (Hs1 c eq_refl) as (t & batch & Hb & Ht & Htm).
      exists t, (push it sz batch).
      by rewrite list_lookup_alter_eq, Hb.
    + simpl. intros [= <-] b [= <-]. rewrite Hd. simpl.
      exists (next_timer s1). eexists.
      rewrite alter_app_r_alt, Nat.sub_diag by lia. simpl.
      rewrite lookup_app_r, Nat.sub_diag by lia. simpl.
      split_and!; [done|done|]. apply lookup_insert_eq.
  - by apply Hrelease.
  - by apply Hrelease.
  - destruct (timers s !! t) as [tm|] eqn:Ht; [|exact Hs].
    destruct (wf_timers s Hwf t tm Ht) as [Hc _].
    unfold on_timeout. simpl. rewrite decide_True by done.
    by apply Hrelease.
  - destruct (heap s !! c) as [x|] eqn:Hx; [|exact Hs].
    destruct (progress x); try exact Hs.
    apply (Hinsert _ c x (on_settled (async_fn r) x)); try done.
    by destruct (async_fn r).
  - destruct (heap s !! c) as [x|] eqn:Hx; [|exact Hs].
    destruct (progress x) as [| |o|o|o|o]; try exact Hs.
    apply (Hinsert _ c x (on_caught o x)); try done. by destruct o.
  - destruct (heap s !! c) as [x|] eqn:Hx; [|exact Hs].
    destruct (progress x) as [| |o|o|o|o]; try exact Hs.
    by apply (Hinsert _ c x (on_finally o x)).
  - destruct (heap s !! c) as [x|] eqn:Hx; [|exact Hs].
    destruct (progress x) as [| |o|o|o|o]; try exact Hs.
    by apply (Hinsert _ c x (set_progress (Removed o) x)).
  - exact Hs.
  - destruct (heap s !! c) as [x|] eqn:Hx; [|exact Hs].
    destruct (on_adopted_fields index x) as (_ & Htime & _ & _).
    destruct (progress x) as [| |o|o|o|o]; try exact Hs.
    all: by apply (Hinsert _ c x (on_adopted index x)).
Qed.

(** With a delay configured the open batch always has its timer pending,
    set for [delay.max]; never more than one timer is pending, and none is
    left once the open batch is released. *)
Theorem open_batch_has_timer d history :
  delay options = Some d →
  (∀ b, current (run options history) = Some b →
     ∃ t (batch : Batch),
       heap (run options history) !! b = Some batch ∧
       timeout batch = Some t ∧
       timers (run options history) !! t =
         Some {| timer_batch := b; timer_delay := d |}) ∧
  (∀ t t' tm tm',
     timers (run options history) !! t = Some tm →
     timers (run options history) !! t' = Some tm' → t = t') ∧
  timers (release (run options history)) = ∅.
Proof.
  intros Hd. split_and!.
  - induction history as [|ev history IH] using rev_ind; [done|].
    unfold run in *. rewrite foldl_app. simpl.
    apply open_batch_has_timer_step; [done| |done].
    apply (run_wf options history).
  - intros t t' tm tm' Ht Ht'. pose proof (run_wf options history) as Hwf.
    destruct (wf_timers _ Hwf t tm Ht) as (Hc & x & Hx & Hxt).
    destruct (wf_timers _ Hwf t' tm' Ht') as (Hc' & x' & Hx' & Hxt').
    rewrite Hc in Hc'. injection Hc' as Heq. rewrite <- Heq in Hx'.
    congruence.
  - apply map_empty. intros t.
    destruct (timers (release (run options history)) !! t) as [tm|] eqn:Ht;
      [|done].
    pose proof (release_wf _ (run_wf options history)) as Hwf.
    destruct (wf_timers _ Hwf t tm Ht) as [Hc _].
    by rewrite release_current in Hc.
Qed.

(** [flush] on a processor with nothing pending calls nothing and waits for
    nothing: its promise is resumed at once. *)
Theorem flush_when_idle history :
  all (run options history) = ∅ →
  calls (flush (run options history)).1 = calls (run options history) ∧
  ∃ fl,
    flushes (step options (flush (run options history)).1
               (Resume (flush (run options history)).2))
      !! (flush (run options history)).2 = Some fl ∧
    awaited fl = ∅ ∧ resumed fl = true.
Proof.
  intros Hall. pose proof (run_wf options history) as Hwf. revert Hall Hwf.
  generalize (run options history). intros s Hall Hwf.
  assert (current s = None) as Hc.
  { destruct (current s) as [b|] eqn:Hc; [|done].
    destruct (current_accumulating s b Hwf Hc) as (batch & Hb & Hacc).
    assert (b ∈ all s) as Hin
      by (apply (wf_all s Hwf b batch Hb); by rewrite Hacc).
    rewrite Hall in Hin. set_solver. }
  destruct (flush_snapshot s) as (Hf & _ & _ & _ & Hcalls).
  split.
  - rewrite Hcalls. unfold release. by rewrite Hc.
  - change (step options (flush s).1 (Resume (flush s).2))
      with (set_flushes (alter on_all (flush s).2 (flushes (flush s).1))
              (flush s).1).
    cbn [flushes set_flushes]. rewrite list_lookup_alter_eq, Hf. simpl.
    rewrite Hall. eexists. split; [done|].
    unfold on_all. simpl. by rewrite decide_True.
Qed.

(** The registry holds exactly the batches that are accumulating or in
    flight: a batch is in it from its creation until the reaction that follows
    its signal, and the open batch is always in it. *)
Theorem registry_is_pending history b :
  (b ∈ all (run options history) ↔
     ∃ batch : Batch, heap (run options history) !! b = Some batch ∧
       is_removed (progress batch) = false) ∧
  (current (run options history) = Some b → b ∈ all (run options history)).
Proof.
  pose proof (run_wf options history) as Hwf. split.
  - split.
    + intros Hin. destruct (wf_all_dom _ Hwf b Hin) as [batch Hb].
      exists batch. split; [done|]. by apply (wf_all _ Hwf b batch Hb).
    + intros (batch & Hb & Hp). by apply (wf_all _ Hwf b batch Hb).
  - intros Hc.
    destruct (current_accumulating _ b Hwf Hc) as (batch & Hb & Hacc).
    apply (wf_all _ Hwf b batch Hb). by rewrite Hacc.
Qed.

End Flow.

(** ** The further properties on concrete runs *)

Lemma total_is_sum_of_sizes_witness :
  exact_sizes (by_size 5 true) [Process 1; Process 2]
  ∧ ∃ batch : Batch Z,
      heap (run (by_size 5 true) [Process 1; Process 2]) !! 0%nat = Some batch
      ∧ total batch = 3
      ∧ total batch = total_size (by_size 5 true) (item <$> entries batch).
Proof.
  assert (exact_sizes (by_size 5 true) [Process 1; Process 2]) as Hexact
    by (vm_compute; discriminate).
  split; [exact Hexact|].
  eexists. split; [vm_compute; reflexivity|]. split; [reflexivity|].
  destruct (total_is_sum_of_sizes (by_size 5 true) [Process 1; Process 2]
              Hexact) as [Hheap _].
  apply (Hheap 0%nat). vm_compute. reflexivity.
Defined.

Lemma size_max_is_a_cap_witness :
  size_options (by_size 2 false) = Some (lenient 2)
  ∧ exact_sizes (by_size 2 false) [Process 1; Process 2; Process 3]
  ∧ (2%nat, [3]) ∈ calls (run (by_size 2 false)
                            [Process 1; Process 2; Process 3])
  ∧ (total_size (by_size 2 false) [3] ≤ size_max (lenient 2) ∨
     (strict (lenient 2) = false ∧
      ∃ it, [3] = [it] ∧ size_max (lenient 2) < item_size (by_size 2 false) it)).
Proof.
  assert ((2%nat, [3]) ∈ calls (run (by_size 2 false)
                                  [Process 1; Process 2; Process 3])) as Hin.
  { apply list_elem_of_In. vm_compute. tauto. }
  assert (exact_sizes (by_size 2 false) [Process 1; Process 2; Process 3])
    as Hexact by (vm_compute; discriminate).
  split_and!; [reflexivity|exact Hexact|exact Hin|].
  exact (size_max_is_a_cap (by_size 2 false) (lenient 2)
           [Process 1; Process 2; Process 3] 2%nat [3] eq_refl Hexact Hin).
Defined.

Lemma count_is_a_cap_witness :
  count (by_count 2) = Some 2
  ∧ (1%nat, [3; 4]) ∈ calls (run (by_count 2) five_by_two)
  ∧ 1 ≤ Z.of_nat (length [3; 4]) ≤ 2.
Proof.
  assert ((1%nat, [3; 4]) ∈ calls (run (by_count 2) five_by_two)) as Hin.
  { apply list_elem_of_In. vm_compute. tauto. }
  split_and!; [reflexivity|exact Hin|..];
    destruct (count_is_a_cap (by_count 2) 2 five_by_two eq_refl) as [Hcalls _];
    try lia; by destruct (Hcalls 1%nat [3; 4] Hin).
Defined.

Lemma open_batch_has_timer_witness :
  delay (by_delay 50) = Some 50
  ∧ current (run (by_delay 50) reopened) = Some 1%nat
  ∧ ∃ t (batch : Batch Z),
      heap (run (by_delay 50) reopened) !! 1%nat = Some batch ∧
      timeout batch = Some t ∧
      timers (run (by_delay 50) reopened) !! t =
        Some {| timer_batch := 1; timer_delay := 50 |}.
Proof.
  assert (current (run (by_delay 50) reopened) = Some 1%nat) as Hc
    by (vm_compute; reflexivity).
  split_and!; [reflexivity|exact Hc|].
  destruct (open_batch_has_timer (by_delay 50) 50 reopened eq_refl)
    as (Hopen & _).
  exact (Hopen 1%nat Hc).
Defined.

Lemma entries_are_kept_witness :
  heap (run no_thresholds short_result) !! 0%nat = Some short_result_batch
  ∧ entries short_result_batch !! 1%nat =
      Some {| item := 2; slot := Rejected (VError "nope"); follows := None |}
  ∧ ∃ (batch' : Batch Z) e',
      heap (run no_thresholds
              (short_result ++ [Catch 0; Finally 0; Delete 0; Process 9]))
        !! 0%nat = Some batch' ∧
      entries batch' !! 1%nat = Some e' ∧
      item e' = 2 ∧ slot e' = Rejected (VError "nope").
Proof.
  assert (heap (run no_thresholds short_result) !! 0%nat =
          Some short_result_batch) as Hb by (vm_compute; reflexivity).
  split_and!; [exact Hb|reflexivity|].
  destruct (entries_are_kept no_thresholds short_result
              [Catch 0; Finally 0; Delete 0; Process 9] 0%nat
              short_result_batch 1%nat
              {| item := 2; slot := Rejected (VError "nope"); follows := None |} Hb eq_refl)
    as (batch' & e' & Hb' & He' & Hitem & Hslot).
  exists batch', e'. split_and!; [exact Hb'|exact He'|exact Hitem|].
  apply Hslot. discriminate.
Defined.

(** An item thrown out is not part of the stream; the others are all
    there. *)
Example items_are_conserved_example :
  accepted (by_size 5 true) [Process 1; Process 9; Process 2; Process 3] =
    [1; 2; 3]
  ∧ calls (run (by_size 5 true)
             [Process 1; Process 9; Process 2; Process 3]) =
      [(0%nat, [1; 2])]
  ∧ open_items (run (by_size 5 true)
                  [Process 1; Process 9; Process 2; Process 3]) = [3].
Proof. split_and!; vm_compute; reflexivity. Qed.

Lemma items_wait_for_release_witness :
  count (by_delay 50) = None
  ∧ size_options (by_delay 50) = None
  ∧ Forall (keeps_open (by_delay 50)) [Process 1; Process 2; Process 3]
  ∧ calls (run (by_delay 50) [Process 1; Process 2; Process 3]) = []
  ∧ (calls (release (run (by_delay 50)
                       [Process 1; Process 2; Process 3]))).*2 =
      [[1; 2; 3]].
Proof.
  assert (Forall (keeps_open (by_delay 50))
            [Process 1; Process 2; Process 3]) as Hopen
    by (repeat constructor).
  split_and!; [reflexivity|reflexivity|exact Hopen|..];
    destruct (items_wait_for_release (by_delay 50)
                [Process 1; Process 2; Process 3] eq_refl eq_refl Hopen)
      as [Hnone Hone]; [exact Hnone|exact Hone].
Defined.

(** A timer that fires is what the waiting excludes: the item submitted
    before it is handed over without a call of [release]. *)
Example timer_ends_the_wait :
  calls (run (by_delay 50) [Process 1; Timeout 0; Process 2]) =
    [(0%nat, [1])].
Proof. vm_compute. reflexivity. Qed.

Lemma flush_when_idle_witness :
  all (run no_thresholds drained) = ∅
  ∧ calls (flush (run no_thresholds drained)).1 =
      calls (run no_thresholds drained).
Proof.
  assert (all (run no_thresholds drained) = ∅) as Hall
    by (vm_compute; reflexivity).
  split; [exact Hall|].
  by destruct (flush_when_idle no_thresholds drained Hall) as [Hcalls _].
Defined.

Lemma registry_is_pending_witness :
  current (run (by_delay 50) reopened) = Some 1%nat
  ∧ 1%nat ∈ all (run (by_delay 50) reopened).
Proof.
  assert (current (run (by_delay 50) reopened) = Some 1%nat) as Hc
    by (vm_compute; reflexivity).
  split; [exact Hc|].
  destruct (registry_is_pending (by_delay 50) reopened 1%nat) as [_ Hin].
  exact (Hin Hc).
Defined.
